(** * SerialHWinfo: serial line reader mirroring numeric readings into the registry

    A shallow embedding of [SerialHWinfo_0.1.cpp] and the properties of its
    line assembly, validation and change-detection pipeline.

    Conventions.  A [char] is an [ascii] (one byte); a [std::string] is a
    [list ascii]; indices and sizes ([size_t]) are [nat]; Win32 status codes
    ([LONG], [DWORD]) are [Z].  Everything the program obtains from the
    operating system (the results of the Win32 calls) is read from an
    explicit environment record. *)

From Stdlib Require Import Ascii String.
From Stdlib Require Import List ZArith Lia Bool Arith.
From Equations Require Import Equations.
Import ListNotations.

Local Open Scope nat_scope.
Local Open Scope list_scope.

(** ** Characters and strings *)

Definition cstring := list ascii.

(** A string literal as a [std::string]. *)
Definition str (s : String.string) : cstring := list_ascii_of_string s.

Definition LF : ascii := "010"%char.
Definition CR : ascii := "013"%char.

Module CType.

(** <cctype> in the "C" locale (the program never calls [setlocale]), on a
    character given by its byte.  [trim_ascii] converts to [unsigned char]
    before the call; line 162 passes a plain [char], which differs for the
    bytes from 128 on only, and these are not white space either way. *)

Definition code (c : ascii) : nat := nat_of_ascii c.

Definition isspace (c : ascii) : bool :=
  (code c =? 32) || ((9 <=? code c) && (code c <=? 13)).

Definition isdigit (c : ascii) : bool :=
  (48 <=? code c) && (code c <=? 57).

Definition isupper (c : ascii) : bool :=
  (65 <=? code c) && (code c <=? 90).

Definition islower (c : ascii) : bool :=
  (97 <=? code c) && (code c <=? 122).

Definition isalpha (c : ascii) : bool := isupper c || islower c.

Definition isxdigit (c : ascii) : bool :=
  isdigit c
  || ((65 <=? code c) && (code c <=? 70))
  || ((97 <=? code c) && (code c <=? 102)).

Definition tolower (c : ascii) : ascii :=
  if isupper c then ascii_of_nat (code c + 32) else c.

End CType.

Module StdString.

(** The members of [std::string] the program uses. *)

(** [s.find(ch)]: the first position of [ch]; [None] is [npos]. *)
Fixpoint find (s : cstring) (ch : ascii) : option nat :=
  match s with
  | [] => None
  | c :: s' => if Ascii.eqb c ch then Some 0 else option_map S (find s' ch)
  end.

(** [s.substr(pos, n)]; the program only calls it with [pos <= s.size()]. *)
Definition substr (s : cstring) (pos n : nat) : cstring :=
  firstn n (skipn pos s).

(** [s.erase(pos, n)]; the program only calls it with [pos = 0]. *)
Definition erase (s : cstring) (pos n : nat) : cstring :=
  firstn pos s ++ skipn (pos + n) s.

(** [s[i]]; every use in the program is guarded by [i < s.size()]. *)
Definition at_ (s : cstring) (i : nat) : ascii := nth i s zero.

Definition empty (s : cstring) : bool :=
  match s with [] => true | _ :: _ => false end.

(** [a != b] is [negb (eqb a b)]. *)
Fixpoint eqb (a b : cstring) : bool :=
  match a, b with
  | [], [] => true
  | x :: a', y :: b' => Ascii.eqb x y && eqb a' b'
  | _, _ => false
  end.

End StdString.

(** ** [trim_ascii] *)

(** [while (i < s.size() && isspace(s[i])) ++i;] where [rest] is the part of
    [s] from position [i] on.  The loop occurs twice in the program: in
    [trim_ascii] (on [start]) and after the call of [std::stod] (on [idx]). *)
Fixpoint skip_spaces (rest : cstring) (i : nat) : nat :=
  match rest with
  | [] => i
  | c :: rest' => if CType.isspace c then skip_spaces rest' (S i) else i
  end.

(** [while (end > start && isspace(s[end])) --end;] *)
Fixpoint trim_scan_end (s : cstring) (start e : nat) : nat :=
  match e with
  | 0 => 0
  | S e' =>
      if (start <? e) && CType.isspace (StdString.at_ s e)
      then trim_scan_end s start e'
      else e
  end.

Definition trim_ascii (s : cstring) : cstring :=
  let start := skip_spaces s 0 in
  if start =? length s then []
  else
    let e := trim_scan_end s start (length s - 1) in
    StdString.substr s start (e - start + 1).

(** ** [std::stod]

    [std::stod(str, &idx)] calls [strtod(str.c_str(), &end)], throws
    [std::invalid_argument] when no conversion was performed, throws
    [std::out_of_range] when [strtod] set [errno] to [ERANGE], and otherwise
    stores [end - str.c_str()] in [idx].  The model follows the subject
    sequence of [strtod] in the C standard: leading white space, an optional
    sign, then the longest prefix that is a decimal floating number, a
    hexadecimal floating number, [INF]/[INFINITY] or [NAN]/[NAN(n-chars)]
    (letters in either case).  A NUL byte inside the string ends what
    [strtod] sees; as no character of a subject sequence is NUL, scanning
    the whole [std::string] stops at the same place.  The converted [double]
    itself is discarded by the program; the model keeps the exact magnitude
    of the literal, which decides the range error. *)

Module Strtod.

Import CType.

(** The magnitude denoted by a subject sequence:
    [Finite b m e] is [m * b ^ e]. *)
Inductive number :=
| Finite (base : Z) (mantissa : Z) (scale : Z)
| Infinite
| NotANumber.

(** Length of the longest prefix of [s] whose characters satisfy [p]. *)
Fixpoint span (p : ascii -> bool) (s : cstring) : nat :=
  match s with
  | [] => 0
  | c :: s' => if p c then S (span p s') else 0
  end.

Definition digit_value (c : ascii) : Z :=
  if isdigit c then Z.of_nat (code c - 48)
  else Z.of_nat (code (tolower c) - 87).

(** The number written by the digits [ds] in base [b]. *)
Definition digits_value (b : Z) (ds : cstring) : Z :=
  fold_left (fun acc c => (acc * b + digit_value c)%Z) ds 0%Z.

(** An optional sign: characters consumed, and whether it is a minus. *)
Definition parse_sign (s : cstring) : nat * bool :=
  match s with
  | c :: _ =>
      if Ascii.eqb c "+"%char then (1, false)
      else if Ascii.eqb c "-"%char then (1, true)
      else (0, false)
  | [] => (0, false)
  end.

(** A digit sequence optionally containing a radix character, with at least
    one digit: characters consumed, the digits read as one integer, and the
    number of digits after the radix character. *)
Definition parse_digits (isd : ascii -> bool) (b : Z) (s : cstring)
  : option (nat * Z * nat) :=
  let i := span isd s in
  let plain :=
    if i =? 0 then None else Some (i, digits_value b (firstn i s), 0) in
  match skipn i s with
  | c :: s2 =>
      if Ascii.eqb c "."%char then
        let f := span isd s2 in
        if i + f =? 0 then None
        else Some (i + 1 + f, digits_value b (firstn i s ++ firstn f s2), f)
      else plain
  | [] => plain
  end.

(** An optional exponent part introduced by [marker] (given in lower case):
    characters consumed and the exponent; [(0, 0)] when there is none. *)
Definition parse_exponent (marker : ascii) (s : cstring) : nat * Z :=
  match s with
  | c :: s1 =>
      if Ascii.eqb (tolower c) marker then
        let '(k, neg) := parse_sign s1 in
        let s2 := skipn k s1 in
        let d := span isdigit s2 in
        if d =? 0 then (0, 0%Z)
        else
          let e := digits_value 10 (firstn d s2) in
          (1 + k + d, if neg then (- e)%Z else e)
      else (0, 0%Z)
  | [] => (0, 0%Z)
  end.

Definition parse_decimal (s : cstring) : option (nat * number) :=
  match parse_digits isdigit 10 s with
  | Some (n, m, f) =>
      let '(k, e) := parse_exponent "e"%char (skipn n s) in
      Some (n + k, Finite 10 m (e - Z.of_nat f))
  | None => None
  end.

Definition parse_hex (s : cstring) : option (nat * number) :=
  match s with
  | z :: x :: s1 =>
      if Ascii.eqb z "0"%char && Ascii.eqb (tolower x) "x"%char then
        match parse_digits isxdigit 16 s1 with
        | Some (n, m, f) =>
            let '(k, e) := parse_exponent "p"%char (skipn n s1) in
            Some (2 + n + k, Finite 2 m (e - 4 * Z.of_nat f))
        | None => None
        end
      else None
  | _ => None
  end.

(** [word] (lower case) is a prefix of [s], ignoring the case of [s]. *)
Fixpoint prefix_nocase (word s : cstring) : bool :=
  match word, s with
  | [], _ => true
  | w :: word', c :: s' => Ascii.eqb (tolower c) w && prefix_nocase word' s'
  | _ :: _, [] => false
  end.

Definition parse_inf (s : cstring) : option (nat * number) :=
  if prefix_nocase (str "infinity") s then Some (8, Infinite)
  else if prefix_nocase (str "inf") s then Some (3, Infinite)
  else None.

Definition isnchar (c : ascii) : bool :=
  isdigit c || isalpha c || Ascii.eqb c "_"%char.

Definition parse_nan (s : cstring) : option (nat * number) :=
  if prefix_nocase (str "nan") s then
    match skipn 3 s with
    | c :: s1 =>
        let k := span isnchar s1 in
        match skipn k s1 with
        | d :: _ =>
            if Ascii.eqb c "("%char && Ascii.eqb d ")"%char
            then Some (3 + 1 + k + 1, NotANumber)
            else Some (3, NotANumber)
        | [] => Some (3, NotANumber)
        end
    | [] => Some (3, NotANumber)
    end
  else None.

(** The subject sequence after white space and sign. *)
Definition parse_number (s : cstring) : option (nat * number) :=
  match parse_hex s with
  | Some r => Some r
  | None =>
      match parse_decimal s with
      | Some r => Some r
      | None =>
          match parse_inf s with
          | Some r => Some r
          | None => parse_nan s
          end
      end
  end.

(** [strtod]: [None] when no conversion is performed ([end == nptr]);
    otherwise the number of characters up to [end] and the magnitude. *)
Definition strtod (s : cstring) : option (nat * number) :=
  let w := span isspace s in
  let s1 := skipn w s in
  let k := fst (parse_sign s1) in
  match parse_number (skipn k s1) with
  | Some (n, v) => Some (w + k + n, v)
  | None => None
  end.

(** Rounding to [double] (binary64, to nearest, ties to even) gives an
    infinity from [2^1024 - 2^970] on, and gives zero up to [2^-1075]. *)
Definition overflow_bound : Z := (2 ^ 1024 - 2 ^ 970)%Z.

Definition overflows (b m e : Z) : bool :=
  if (0 <=? e)%Z then (overflow_bound <=? m * b ^ e)%Z
  else (overflow_bound * b ^ (- e) <=? m)%Z.

Definition underflows (b m e : Z) : bool :=
  (0 <? m)%Z && (e <? 0)%Z && (m * 2 ^ 1075 <=? b ^ (- e))%Z.

(** [errno == ERANGE] after the conversion: the result overflowed, or a
    non-zero literal was rounded to zero (the C standard leaves the report
    of underflow to the implementation; this is the Universal C Runtime's
    choice). *)
Definition erange (v : number) : bool :=
  match v with
  | Finite b m e => overflows b m e || underflows b m e
  | Infinite | NotANumber => false
  end.

End Strtod.

Inductive stod_exception := invalid_argument | out_of_range.

(** [std::stod(s, &idx)]: the exception thrown, or the value stored in [idx]. *)
Definition stod (s : cstring) : stod_exception + nat :=
  match Strtod.strtod s with
  | None => inl invalid_argument
  | Some (n, v) => if Strtod.erange v then inl out_of_range else inr n
  end.


(** ** The environment: what the Win32 calls return *)

Definition wstring := list N.

Definition CP_ACP : Z := 0.
Definition CP_UTF8 : Z := 65001.
Definition ERROR_SUCCESS : Z := 0.
Definition ERROR_OPERATION_ABORTED : Z := 995.

(** One call of [ReadFile]: it fails with [GetLastError() = err], or it
    succeeds and has put [data] ([bytesRead] bytes, possibly none) at the
    start of [tempBuf]. *)
Inductive read_result :=
| ReadFailed (err : Z)
| ReadOk (data : cstring).

Record Win32 := {
  (** [CreateFileW] returned a handle other than [INVALID_HANDLE_VALUE] *)
  CreateFileW_ok : bool;
  GetCommState_ok : bool;
  SetCommState_ok : bool;
  SetCommTimeouts_ok : bool;
  RegCreateKeyExW_res : Z;
  (** the result of the [n]-th call of [RegSetValueExW], counted from 0 *)
  RegSetValueExW_res : nat -> Z;
  (** [MultiByteToWideChar(codepage, 0, in, size, ...)]: the converted text;
      [[]] when the call returns 0 *)
  MultiByteToWideChar : Z -> cstring -> wstring;
  (** the calls of [ReadFile] made while [g_running] is observed set, in
      order; [g_running] is observed cleared after the last of them *)
  ReadFile_res : list read_result
}.

(** ** Observable behaviour *)

Inductive message :=
| MsgOpening
| ErrCannotOpen
| ErrGetCommState
| ErrSetCommState
| ErrRegCreate (res : Z)
| WarnName (res : Z)
| MsgListening
| ErrReadFile (err : Z)
| MsgIgnored (trimmed : cstring)
| ErrWriteValue (wres : Z)
| MsgWroteValue (wvalue : wstring)
| MsgShuttingDown
| MsgExitComplete.

Inductive event :=
| Print (m : message)
| RegSetValue (name : String.string) (data : wstring) (res : Z)
| ReadFileCall
| Sleep (ms : nat)
| RegCloseKey
| CloseHandle.

(** ** [utf8_to_wstring] *)

Definition widen (s : cstring) : wstring := map N_of_ascii s.

Definition utf8_to_wstring (env : Win32) (in_ : cstring) : wstring :=
  if StdString.empty in_ then []
  else
    let needed := length (MultiByteToWideChar env CP_UTF8 in_) in
    if needed =? 0 then
      let needed := length (MultiByteToWideChar env CP_ACP in_) in
      if needed =? 0 then []
      else
        (* [out.resize(needed)], and the conversion, again with [CP_UTF8],
           fails as its sizing call did and leaves [out] as it is *)
        repeat 0%N needed
    else MultiByteToWideChar env CP_UTF8 in_.

(** ** The body of the line loop *)

(** The local variables of [wmain] that outlive one line, apart from
    [readBuffer]; [reg_calls] counts the calls of [RegSetValueExW] made so
    far, [trace] is the output so far, and [lines] is the history of the
    local variable [line] (one entry per turn of the inner loop). *)
Record state := {
  lastValueWritten : cstring;
  reg_calls : nat;
  trace : list event;
  lines : list cstring
}.

Definition emit (e : event) (st : state) : state :=
  {| lastValueWritten := lastValueWritten st;
     reg_calls := reg_calls st;
     trace := trace st ++ [e];
     lines := lines st |}.

(** Lines 158-165: the [try] block deciding [valid]. *)
Definition valid_number (trimmed : cstring) : bool :=
  match stod trimmed with
  | inr idx =>
      let idx' := skip_spaces (skipn idx trimmed) idx in
      idx' =? length trimmed
  | inl _ => false
  end.

(** Lines 154-170: what becomes of a line before the comparison with
    [lastValueWritten]. *)
Inductive verdict :=
| Skipped                        (* empty after trimming: [continue] *)
| Rejected (trimmed : cstring)   (* reported as non-numeric: [continue] *)
| Reading (text : cstring).      (* goes on to line 172 *)

Definition validate (line : cstring) : verdict :=
  let trimmed := trim_ascii line in
  if StdString.empty trimmed then Skipped
  else if valid_number trimmed then Reading trimmed
  else Rejected trimmed.

(** Lines 172-185. *)
Definition admit_reading (env : Win32) (trimmed : cstring) (st : state) : state :=
  if negb (StdString.eqb trimmed (lastValueWritten st)) then
    let wvalue := utf8_to_wstring env trimmed in
    let wres := RegSetValueExW_res env (reg_calls st) in
    let st1 :=
      {| lastValueWritten := trimmed;
         reg_calls := S (reg_calls st);
         trace := trace st ++ [RegSetValue "Value" wvalue wres];
         lines := lines st |} in
    if negb (wres =? ERROR_SUCCESS)%Z
    then emit (Print (ErrWriteValue wres)) st1
    else emit (Print (MsgWroteValue wvalue)) st1
  else st.

(** Lines 151-185 for one extracted [line]. *)
Definition process_line (env : Win32) (line : cstring) (st : state) : state :=
  let st :=
    {| lastValueWritten := lastValueWritten st;
       reg_calls := reg_calls st;
       trace := trace st;
       lines := lines st ++ [line] |} in
  match validate line with
  | Skipped => st
  | Rejected trimmed => emit (Print (MsgIgnored trimmed)) st
  | Reading trimmed => admit_reading env trimmed st
  end.

(** ** The inner loop (lines 150-186) *)

Definition inspect {A : Type} (a : A) : {b : A | a = b} := exist _ a eq_refl.

Equations? drain (env : Win32) (readBuffer : cstring) (st : state)
  : cstring * state by wf (length readBuffer) lt :=
  drain env readBuffer st with inspect (StdString.find readBuffer LF) := {
    | exist _ (Some pos) Hpos =>
        let line := StdString.substr readBuffer 0 (pos + 1) in
        drain env (StdString.erase readBuffer 0 (pos + 1))
              (process_line env line st);
    | exist _ None _ => (readBuffer, st) }.
Proof.
  (* [find] returned a position inside the buffer, so [erase] shortens it *)
  unfold StdString.erase; simpl; rewrite length_skipn.
  assert (pos < length readBuffer); [|lia].
  clear - Hpos. revert pos Hpos.
  induction readBuffer as [|c s IH]; simpl; intros pos H; [discriminate|].
  destruct (Ascii.eqb c LF).
  - injection H as <-. lia.
  - destruct (StdString.find s LF) as [q|]; [|discriminate].
    injection H as <-. specialize (IH q eq_refl). lia.
Qed.

(** ** The outer loop (lines 131-187) and [wmain] *)

(** One turn of the outer loop, [g_running] having been observed set. *)
Definition iteration (env : Win32) (r : read_result) (bs : cstring * state)
  : cstring * state :=
  let '(readBuffer, st) := bs in
  let st := emit ReadFileCall st in
  match r with
  | ReadFailed err =>
      let st :=
        if negb (err =? ERROR_OPERATION_ABORTED)%Z
        then emit (Print (ErrReadFile err)) st
        else st in
      (readBuffer, emit (Sleep 50) st)
  | ReadOk data =>
      if length data =? 0 then (readBuffer, emit (Sleep 10) st)
      else drain env (readBuffer ++ data) st
  end.

Definition run_loop (env : Win32) (reads : list read_result)
           (bs : cstring * state) : cstring * state :=
  fold_left (fun bs r => iteration env r bs) reads bs.

(** Lines 115-129: the state in which the outer loop is entered. *)
Definition loop_entry (env : Win32) : cstring * state :=
  let res := RegSetValueExW_res env 0 in
  let t := [Print MsgOpening; RegSetValue "Name" (widen (str "Temperature")) res] in
  let t := if negb (res =? ERROR_SUCCESS)%Z then t ++ [Print (WarnName res)] else t in
  ([], {| lastValueWritten := [];
          reg_calls := 1;
          trace := t ++ [Print MsgListening];
          lines := [] |}).

(** [wmain]: the exit status and the output. *)
Definition wmain (env : Win32) : Z * list event :=
  if negb (CreateFileW_ok env) then
    (1%Z, [Print MsgOpening; Print ErrCannotOpen])
  else if negb (GetCommState_ok env) then
    (1%Z, [Print MsgOpening; Print ErrGetCommState; CloseHandle])
  else if negb (SetCommState_ok env) then
    (1%Z, [Print MsgOpening; Print ErrSetCommState; CloseHandle])
  else
    (* [SetCommTimeouts(hSerial, &timeouts);] its result is not looked at *)
    let res := RegCreateKeyExW_res env in
    if negb (res =? ERROR_SUCCESS)%Z then
      (1%Z, [Print MsgOpening; Print (ErrRegCreate res); CloseHandle])
    else
      let '(_, st) := run_loop env (ReadFile_res env) (loop_entry env) in
      (0%Z, trace st ++ [Print MsgShuttingDown; RegCloseKey; CloseHandle;
                         Print MsgExitComplete]).

(** ** Notions the properties are stated with *)

(** The bytes delivered by the reads, in order. *)
Definition payload (r : read_result) : cstring :=
  match r with
  | ReadFailed _ => []
  | ReadOk data => data
  end.

Definition received (reads : list read_result) : cstring :=
  concat (map payload reads).

(** Splitting a text on the newline byte, one byte at a time: the segments
    closed by a newline (without it), and the unterminated rest.  [cur] holds
    the bytes of the current segment, latest first. *)
Fixpoint split_newline_from (cur : cstring) (s : cstring)
  : list cstring * cstring :=
  match s with
  | [] => ([], rev cur)
  | c :: s' =>
      if Ascii.eqb c LF then
        let '(segs, rest) := split_newline_from [] s' in
        (rev cur :: segs, rest)
      else split_newline_from (c :: cur) s'
  end.

Definition split_newline (s : cstring) : list cstring * cstring :=
  split_newline_from [] s.

Definition terminated (seg : cstring) : cstring := seg ++ [LF].

(** The canonical texts of the Readings among a sequence of lines. *)
Definition readings (ls : list cstring) : list cstring :=
  flat_map (fun l => match validate l with Reading t => [t] | _ => [] end) ls.

(** The texts of a sequence that differ from their predecessor, [last]
    being the predecessor of the first. *)
Fixpoint changes (last : cstring) (ts : list cstring) : list cstring :=
  match ts with
  | [] => []
  | t :: ts' =>
      if StdString.eqb t last then changes last ts' else t :: changes t ts'
  end.

(** The calls [RegSetValueExW(hKey, L"Value", ...)] in an output: the data
    written and the result, in order. *)
Definition value_writes (tr : list event) : list (wstring * Z) :=
  flat_map (fun e => match e with
                     | RegSetValue name data res =>
                         if String.eqb name "Value" then [(data, res)] else []
                     | _ => []
                     end) tr.

Definition read_calls (tr : list event) : nat :=
  length (filter (fun e => match e with ReadFileCall => true | _ => false end) tr).

(** A text all of whose bytes are 7-bit; UTF-8 decodes it byte by byte. *)
Definition is_ascii7 (s : cstring) : bool :=
  forallb (fun c => CType.code c <? 128) s.

Definition decodes_ascii (env : Win32) : Prop :=
  forall s, s <> [] -> is_ascii7 s = true ->
            MultiByteToWideChar env CP_UTF8 s = widen s.

(** The write attempts that forwarding the texts [ts] makes, the first of
    them being call number [n] of [RegSetValueExW]. *)
Fixpoint write_attempts (env : Win32) (n : nat) (ts : list cstring)
  : list (wstring * Z) :=
  match ts with
  | [] => []
  | t :: ts' =>
      (utf8_to_wstring env t, RegSetValueExW_res env n)
        :: write_attempts env (S n) ts'
  end.

(** The loop body applied to a sequence of lines, in order. *)
Definition process_lines (env : Win32) (ls : list cstring) (st : state) : state :=
  fold_left (fun st l => process_line env l st) ls st.

(** What the properties below observe of a state: everything but the
    console messages, the [ReadFile] calls and the waits. *)
Definition view (st : state) : cstring * nat * list (wstring * Z) * list cstring :=
  (lastValueWritten st, reg_calls st, value_writes (trace st), lines st).

Definition clean (s : cstring) : Prop := ~ In LF s.

(** Trimming said directly: drop the leading white space, and drop the
    trailing white space. *)
Fixpoint drop_spaces (s : cstring) : cstring :=
  match s with
  | [] => []
  | c :: s' => if CType.isspace c then drop_spaces s' else s
  end.

Definition strip (s : cstring) : cstring :=
  rev (drop_spaces (rev (drop_spaces s))).

Definition blank (s : cstring) : bool := forallb CType.isspace s.

(** ** Floating literals, as a grammar

    The texts [strtod] converts in full, said without reference to the way
    it scans: an optional sign, then a decimal floating number, a
    hexadecimal floating number, an infinity or a NaN. *)

Module Literal.

Import CType Strtod.

Definition all (p : ascii -> bool) (s : cstring) : Prop :=
  forallb p s = true.

(** What stops a scan over [p]: the end, or a character not in [p]. *)
Definition stops (p : ascii -> bool) (rest : cstring) : Prop :=
  match rest with
  | [] => True
  | c :: _ => p c = false
  end.

(** A text without a sign at its head. *)
Definition unsigned_head (u : cstring) : Prop :=
  match u with
  | [] => True
  | c :: _ => c <> "+"%char /\ c <> "-"%char
  end.

Inductive sign_text : cstring -> Prop :=
| sign_none : sign_text []
| sign_plus : sign_text ["+"%char]
| sign_minus : sign_text ["-"%char].

Definition negative (sg : cstring) : bool :=
  match sg with
  | "-"%char :: _ => true
  | _ => false
  end.

(** [digits_text isd txt ip fp]: [txt] is the digits [ip], optionally
    followed by a radix character and the digits [fp], with at least one
    digit in all. *)
Inductive digits_text (isd : ascii -> bool)
  : cstring -> cstring -> cstring -> Prop :=
| digits_plain ip :
    ip <> [] -> all isd ip -> digits_text isd ip ip []
| digits_radix ip fp :
    ip ++ fp <> [] -> all isd ip -> all isd fp ->
    digits_text isd (ip ++ "."%char :: fp) ip fp.

(** [exponent_text marker txt e]: [txt] is empty and [e] is 0, or [txt] is
    the marker (in either case), an optional sign and the decimal digits
    of [e]. *)
Inductive exponent_text (marker : ascii) : cstring -> Z -> Prop :=
| exponent_none : exponent_text marker [] 0%Z
| exponent_some c sg ds :
    tolower c = marker -> sign_text sg -> ds <> [] -> all isdigit ds ->
    exponent_text marker (c :: sg ++ ds)
                  (if negative sg then (- digits_value 10 ds)%Z
                   else digits_value 10 ds).

Inductive unsigned_literal : cstring -> number -> Prop :=
| literal_decimal m ip fp ex e :
    digits_text isdigit m ip fp -> exponent_text "e"%char ex e ->
    unsigned_literal
      (m ++ ex)
      (Finite 10 (digits_value 10 (ip ++ fp)) (e - Z.of_nat (length fp)))
| literal_hex x m ip fp ex e :
    tolower x = "x"%char ->
    digits_text isxdigit m ip fp -> exponent_text "p"%char ex e ->
    unsigned_literal
      ("0"%char :: x :: m ++ ex)
      (Finite 2 (digits_value 16 (ip ++ fp))
              (e - 4 * Z.of_nat (length fp)))
| literal_inf w :
    map tolower w = str "inf" \/ map tolower w = str "infinity" ->
    unsigned_literal w Infinite
| literal_nan w :
    map tolower w = str "nan" -> unsigned_literal w NotANumber
| literal_nan_chars w cs :
    map tolower w = str "nan" -> all isnchar cs ->
    unsigned_literal (w ++ "("%char :: cs ++ [")"%char]) NotANumber.

(** [t] is, in whole, a floating literal of magnitude [v]. *)
Definition float_literal (t : cstring) (v : number) : Prop :=
  exists sg u, t = sg ++ u /\ sign_text sg /\ unsigned_literal u v.

(** [t] is, in whole, a decimal floating literal. *)
Definition decimal_literal (t : cstring) : Prop :=
  exists sg m ip fp ex e,
    t = sg ++ m ++ ex /\ sign_text sg /\
    digits_text isdigit m ip fp /\ exponent_text "e"%char ex e.

End Literal.

(** The result of [RegSetValueExW] when access is denied. *)
Definition ERROR_ACCESS_DENIED : Z := 5.

(** An environment in which every call succeeds and nothing is read. *)
Definition quiet_env : Win32 :=
  {| CreateFileW_ok := true;
     GetCommState_ok := true;
     SetCommState_ok := true;
     SetCommTimeouts_ok := true;
     RegCreateKeyExW_res := ERROR_SUCCESS;
     RegSetValueExW_res := fun _ => ERROR_SUCCESS;
     MultiByteToWideChar := fun _ s => widen s;
     ReadFile_res := [] |}.

(** As [quiet_env], but every write of the registry value is refused. *)
Definition denying_env : Win32 :=
  {| CreateFileW_ok := true;
     GetCommState_ok := true;
     SetCommState_ok := true;
     SetCommTimeouts_ok := true;
     RegCreateKeyExW_res := ERROR_SUCCESS;
     RegSetValueExW_res := fun _ => ERROR_ACCESS_DENIED;
     MultiByteToWideChar := fun _ s => widen s;
     ReadFile_res := [] |}.

(** Every call succeeds but [SetCommTimeouts]; one line is read before
    [g_running] is cleared. *)
Definition no_timeouts_env : Win32 :=
  {| CreateFileW_ok := true;
     GetCommState_ok := true;
     SetCommState_ok := true;
     SetCommTimeouts_ok := false;
     RegCreateKeyExW_res := ERROR_SUCCESS;
     RegSetValueExW_res := fun _ => ERROR_SUCCESS;
     MultiByteToWideChar := fun _ s => widen s;
     ReadFile_res := [ReadOk (str "21.5" ++ [LF])] |}.

(** A startup failure that [wmain] looks for. *)
Definition startup_failure_detected (env : Win32) : Prop :=
  CreateFileW_ok env = false \/ GetCommState_ok env = false \/
  SetCommState_ok env = false \/ RegCreateKeyExW_res env <> ERROR_SUCCESS.

(** ** [ConsoleHandler]

    The control codes are those of <wincon.h>.  The handler's only effect is
    on [g_running]; it is given the flag and returns the value it returns to
    the system ([TRUE] as [true]) and the flag afterwards. *)

Definition CTRL_C_EVENT : Z := 0.
Definition CTRL_BREAK_EVENT : Z := 1.
Definition CTRL_CLOSE_EVENT : Z := 2.
Definition CTRL_LOGOFF_EVENT : Z := 5.
Definition CTRL_SHUTDOWN_EVENT : Z := 6.

Definition ConsoleHandler (dwCtrlType : Z) (g_running : bool) : bool * bool :=
  if (dwCtrlType =? CTRL_C_EVENT)%Z || (dwCtrlType =? CTRL_CLOSE_EVENT)%Z
     || (dwCtrlType =? CTRL_LOGOFF_EVENT)%Z
     || (dwCtrlType =? CTRL_SHUTDOWN_EVENT)%Z
  then (true, false)
  else (false, g_running).

(** [g_running] after the handler has been called for each of a sequence of
    control codes. *)
Definition after_controls (codes : list Z) (g_running : bool) : bool :=
  fold_left (fun g code => snd (ConsoleHandler code g)) codes g_running.

(** ** Further notions for the properties *)

(** The events one turn of the outer loop produces itself, apart from what
    the line loop produces. *)
Definition outer_events (r : read_result) : list event :=
  ReadFileCall ::
  match r with
  | ReadFailed err =>
      (if negb (err =? ERROR_OPERATION_ABORTED)%Z
       then [Print (ErrReadFile err)] else [])
      ++ [Sleep 50]
  | ReadOk [] => [Sleep 10]
  | ReadOk (_ :: _) => []
  end.

(** The events that only the body of the line loop produces. *)
Definition is_line_event (e : event) : bool :=
  match e with
  | Print (MsgIgnored _) | Print (ErrWriteValue _) | Print (MsgWroteValue _) =>
      true
  | RegSetValue _ _ _ => true
  | _ => false
  end.

Definition outer_part (tr : list event) : list event :=
  filter (fun e => negb (is_line_event e)) tr.

(** The texts reported as non-numeric in an output, in order. *)
Definition ignored_reports (tr : list event) : list cstring :=
  flat_map (fun e => match e with Print (MsgIgnored t) => [t] | _ => [] end) tr.

(** The trimmed texts of the rejected lines among a sequence of lines. *)
Definition rejections (ls : list cstring) : list cstring :=
  flat_map (fun l => match validate l with Rejected t => [t] | _ => [] end) ls.

(** The calls [RegSetValueExW(hKey, L"Name", ...)] in an output. *)
Definition name_writes (tr : list event) : list (wstring * Z) :=
  flat_map (fun e => match e with
                     | RegSetValue name data res =>
                         if String.eqb name "Name" then [(data, res)] else []
                     | _ => []
                     end) tr.

(** The calls of [RegSetValueExW] in an output, whatever the name. *)
Definition registry_writes (tr : list event) : nat :=
  length (filter (fun e => match e with RegSetValue _ _ _ => true | _ => false end) tr).

Definition handle_closes (tr : list event) : nat :=
  length (filter (fun e => match e with CloseHandle => true | _ => false end) tr).

Definition key_closes (tr : list event) : nat :=
  length (filter (fun e => match e with RegCloseKey => true | _ => false end) tr).




(** No two neighbours of a list are equal. *)
Fixpoint adjacent_distinct {A : Type} (l : list A) : Prop :=
  match l with
  | [] => True
  | x :: l' =>
      match l' with
      | [] => True
      | y :: _ => x <> y /\ adjacent_distinct l'
      end
  end.

(** The characters a floating literal is made of. *)
Definition literal_char (c : ascii) : bool :=
  CType.isdigit c || CType.isalpha c
  || Ascii.eqb c "+"%char || Ascii.eqb c "-"%char || Ascii.eqb c "."%char
  || Ascii.eqb c "("%char || Ascii.eqb c ")"%char || Ascii.eqb c "_"%char.

Definition no_space (s : cstring) : bool :=
  forallb (fun c => negb (CType.isspace c)) s.

(** Whether [wmain] gets past its startup: none of the failures it looks for
    occurs. *)
Definition startup_ok (env : Win32) : bool :=
  CreateFileW_ok env && GetCommState_ok env && SetCommState_ok env
  && (RegCreateKeyExW_res env =? ERROR_SUCCESS)%Z.

(** An environment in which the name cannot be written, and one line is read. *)
Definition no_name_env : Win32 :=
  {| CreateFileW_ok := true;
     GetCommState_ok := true;
     SetCommState_ok := true;
     SetCommTimeouts_ok := true;
     RegCreateKeyExW_res := ERROR_SUCCESS;
     RegSetValueExW_res := fun n => if n =? 0 then ERROR_ACCESS_DENIED
                                    else ERROR_SUCCESS;
     MultiByteToWideChar := fun _ s => widen s;
     ReadFile_res := [ReadOk (str "21.5" ++ [LF])] |}.

(** An environment in which the port cannot be opened. *)
Definition no_port_env : Win32 :=
  {| CreateFileW_ok := false;
     GetCommState_ok := true;
     SetCommState_ok := true;
     SetCommTimeouts_ok := true;
     RegCreateKeyExW_res := ERROR_SUCCESS;
     RegSetValueExW_res := fun _ => ERROR_SUCCESS;
     MultiByteToWideChar := fun _ s => widen s;
     ReadFile_res := [ReadOk (str "21.5" ++ [LF])] |}.

(** * Properties *)

(** ** The models on small inputs *)

Example trim_ascii_42 :
  trim_ascii (str "  42  " ++ [LF]) = str "42".
Proof. reflexivity. Qed.

Example stod_examples :
  stod (str "12.5 extra") = inr 4 /\
  stod (str "-3.14") = inr 5 /\
  stod (str "1e") = inr 1 /\
  stod (str "+.5E-3x") = inr 6 /\
  stod (str "0x1Ap3") = inr 6 /\
  stod (str "0xg") = inr 1 /\
  stod (str "0x.p1") = inr 1 /\
  stod (str "Infinit") = inr 3 /\
  stod (str "-INFINITY") = inr 9 /\
  stod (str "nan(ab_1)") = inr 9 /\
  stod (str "nan(ab-1)") = inr 3 /\
  stod (str ".") = inl invalid_argument /\
  stod (str "abc") = inl invalid_argument /\
  stod (str "1e999") = inl out_of_range /\
  stod (str "1.7976931348623157e308") = inr 22 /\
  stod (str "1.7976931348623159e308") = inl out_of_range /\
  stod (str "4.9e-324") = inr 8 /\
  stod (str "2e-324") = inl out_of_range /\
  stod (str "0e999") = inr 5.
Proof. vm_compute. repeat split. Qed.

(** ** The line assembler *)

Section LineAssembler.

Import StdString.

Lemma find_none (s : cstring) (ch : ascii) :
  find s ch = None <-> ~ In ch s.
Proof.
  induction s as [|c s IH]; simpl; [tauto|].
  destruct (Ascii.eqb_spec c ch) as [-> | Hne].
  - split; [discriminate | intros H; exfalso; apply H; now left].
  - destruct (find s ch); simpl.
    + split; [discriminate|]. intros H; exfalso.
      destruct IH as [_ IH]. assert (Some n = None) as E; [|discriminate E].
      apply IH. intros Hin. apply H. now right.
    + split; [|reflexivity]. intros _ [E|Hin]; [congruence|].
      now apply IH.
Qed.

(** Where [find] succeeds, the buffer is the bytes before the position
    (free of [ch]), then [ch], then the rest. *)
Lemma find_some (s : cstring) (ch : ascii) (pos : nat) :
  find s ch = Some pos ->
  s = firstn pos s ++ ch :: skipn (S pos) s /\ ~ In ch (firstn pos s).
Proof.
  revert pos; induction s as [|c s IH]; simpl; intros pos H; [discriminate|].
  destruct (Ascii.eqb_spec c ch) as [-> | Hne].
  - injection H as <-. simpl. split; [reflexivity | tauto].
  - destruct (find s ch) as [q|]; [|discriminate].
    injection H as <-. destruct (IH q eq_refl) as [E Hn]. simpl. split.
    + f_equal. exact E.
    + intros [E'|Hin]; [congruence | tauto].
Qed.

Lemma substr_front (s : cstring) (n : nat) : substr s 0 n = firstn n s.
Proof. reflexivity. Qed.

Lemma erase_front (s : cstring) (n : nat) : erase s 0 n = skipn n s.
Proof. reflexivity. Qed.

(** The line taken by one turn of the inner loop, and what is left. *)
Lemma extract_line (s : cstring) (pos : nat) :
  find s LF = Some pos ->
  substr s 0 (pos + 1) = terminated (firstn pos s) /\
  s = substr s 0 (pos + 1) ++ erase s 0 (pos + 1).
Proof.
  intros H. rewrite substr_front, erase_front.
  split; [|symmetry; apply firstn_skipn].
  destruct (find_some _ _ _ H) as [E _].
  unfold terminated. rewrite Nat.add_1_r.
  rewrite E at 1.
  assert (length (firstn pos s) = pos) as L.
  { apply firstn_length_le.
    assert (length s = length (firstn pos s) + S (length (skipn (S pos) s))) as L'.
    { rewrite E at 1. rewrite length_app. reflexivity. }
    rewrite length_firstn in L'. lia. }
  replace (S pos) with (length (firstn pos s) + 1) at 1 by lia.
  rewrite firstn_app_2. reflexivity.
Qed.

Lemma split_newline_from_none (cur s : cstring) :
  ~ In LF s -> split_newline_from cur s = ([], rev cur ++ s).
Proof.
  revert cur; induction s as [|c s IH]; simpl; intros cur H.
  - now rewrite app_nil_r.
  - destruct (Ascii.eqb_spec c LF) as [-> | Hne]; [tauto|].
    rewrite IH by tauto. simpl. now rewrite <- app_assoc.
Qed.

Lemma split_newline_from_some (cur a b : cstring) :
  ~ In LF a ->
  split_newline_from cur (a ++ LF :: b) =
  ((rev cur ++ a) :: fst (split_newline b), snd (split_newline b)).
Proof.
  revert cur; induction a as [|c a IH]; simpl; intros cur H.
  - rewrite app_nil_r. unfold split_newline.
    now destruct (split_newline_from [] b).
  - destruct (Ascii.eqb_spec c LF) as [-> | Hne]; [tauto|].
    rewrite IH by tauto. simpl. now rewrite <- app_assoc.
Qed.

(** A text made of terminated segments and an unterminated rest splits
    into exactly these. *)
Lemma split_newline_unique (segs : list cstring) (rest : cstring) :
  Forall (fun seg => ~ In LF seg) segs -> ~ In LF rest ->
  split_newline (concat (map terminated segs) ++ rest) = (segs, rest).
Proof.
  intros Hsegs Hrest. induction Hsegs as [|seg segs Hseg _ IH]; simpl.
  - unfold split_newline. now rewrite split_newline_from_none.
  - unfold terminated at 1. rewrite <- !app_assoc. simpl.
    unfold split_newline at 1. rewrite split_newline_from_some by assumption.
    now rewrite IH.
Qed.

Lemma drain_step (env : Win32) (buf : cstring) (st : state) :
  drain env buf st =
  match find buf LF with
  | Some pos =>
      drain env (erase buf 0 (pos + 1))
            (process_line env (substr buf 0 (pos + 1)) st)
  | None => (buf, st)
  end.
Proof.
  rewrite drain_equation_1.
  generalize (inspect (find buf LF)).
  intros [[pos|] H]; simpl; now rewrite H.
Qed.

(** The inner loop takes the terminated segments off the buffer, in
    order, runs the body on each, and leaves the unterminated rest. *)
Lemma drain_spec (env : Win32) (buf : cstring) (st : state) :
  exists segs,
    Forall clean segs /\
    buf = concat (map terminated segs) ++ fst (drain env buf st) /\
    clean (fst (drain env buf st)) /\
    snd (drain env buf st) = process_lines env (map terminated segs) st.
Proof.
  remember (length buf) as n eqn:Hn.
  revert buf st Hn.
  induction n as [n IH] using lt_wf_ind. intros buf st Hn.
  rewrite drain_step. destruct (find buf LF) as [pos|] eqn:Hfind.
  - destruct (extract_line _ _ Hfind) as [Hline Hbuf].
    destruct (find_some _ _ _ Hfind) as [_ Hclean].
    assert (length (erase buf 0 (pos + 1)) < n) as Hlt.
    { rewrite erase_front, length_skipn. subst n.
      assert (length buf = length (substr buf 0 (pos + 1))
                           + length (erase buf 0 (pos + 1))) as L
          by (rewrite Hbuf at 1; apply length_app).
      rewrite Hline in L. unfold terminated in L.
      rewrite length_app in L. simpl in L. lia. }
    destruct (IH _ Hlt (erase buf 0 (pos + 1))
                 (process_line env (substr buf 0 (pos + 1)) st) eq_refl)
      as (segs & Hsegs & Hrest & Hc & Hst).
    exists (firstn pos buf :: segs). repeat split.
    + constructor; assumption.
    + simpl. rewrite <- app_assoc, <- Hrest, <- Hline. exact Hbuf.
    + exact Hc.
    + rewrite Hst. simpl. now rewrite Hline.
  - exists []. simpl. repeat split; [constructor | now apply find_none].
Qed.

End LineAssembler.

(** ** The change-detection gate *)

Section Gate.

Variable env : Win32.

Lemma cstring_eqb_spec (a b : cstring) : reflect (a = b) (StdString.eqb a b).
Proof.
  revert b; induction a as [|x a IH]; intros [|y b]; simpl;
    try (constructor; congruence).
  destruct (Ascii.eqb_spec x y) as [-> | Hne]; simpl.
  - destruct (IH b) as [-> | Hne]; constructor; congruence.
  - constructor; congruence.
Qed.

Lemma value_writes_app (t1 t2 : list event) :
  value_writes (t1 ++ t2) = value_writes t1 ++ value_writes t2.
Proof. apply flat_map_app. Qed.

Lemma view_emit_print (m : message) (st : state) :
  view (emit (Print m) st) = view st.
Proof.
  unfold view, emit; simpl. now rewrite value_writes_app, app_nil_r.
Qed.

Lemma view_emit_sleep (ms : nat) (st : state) :
  view (emit (Sleep ms) st) = view st.
Proof.
  unfold view, emit; simpl. now rewrite value_writes_app, app_nil_r.
Qed.

Lemma view_emit_read (st : state) : view (emit ReadFileCall st) = view st.
Proof.
  unfold view, emit; simpl. now rewrite value_writes_app, app_nil_r.
Qed.

(** The gate on one reading: nothing when the text is the remembered one;
    otherwise one write attempt, and the text is remembered whatever the
    result of the write. *)
Lemma admit_reading_view (t : cstring) (st : state) :
  view (admit_reading env t st) =
  if StdString.eqb t (lastValueWritten st) then view st
  else (t, S (reg_calls st),
        value_writes (trace st)
          ++ [(utf8_to_wstring env t, RegSetValueExW_res env (reg_calls st))],
        lines st).
Proof.
  unfold admit_reading.
  destruct (StdString.eqb t (lastValueWritten st)); simpl; [reflexivity|].
  destruct (negb _); rewrite view_emit_print;
    unfold view; simpl; now rewrite value_writes_app.
Qed.

Lemma process_line_view (l : cstring) (st : state) :
  view (process_line env l st) =
  match validate l with
  | Reading t =>
      if StdString.eqb t (lastValueWritten st)
      then (lastValueWritten st, reg_calls st, value_writes (trace st),
            lines st ++ [l])
      else (t, S (reg_calls st),
            value_writes (trace st)
              ++ [(utf8_to_wstring env t,
                   RegSetValueExW_res env (reg_calls st))],
            lines st ++ [l])
  | _ => (lastValueWritten st, reg_calls st, value_writes (trace st),
          lines st ++ [l])
  end.
Proof.
  unfold process_line. destruct (validate l) as [|t|t].
  - reflexivity.
  - now rewrite view_emit_print.
  - rewrite admit_reading_view. simpl.
    now destruct (StdString.eqb t (lastValueWritten st)).
Qed.

Lemma process_line_congr (l : cstring) (st st' : state) :
  view st = view st' ->
  view (process_line env l st) = view (process_line env l st').
Proof.
  intros H. rewrite !process_line_view.
  unfold view in H. injection H as -> -> -> ->. reflexivity.
Qed.

Lemma process_lines_congr (ls : list cstring) (st st' : state) :
  view st = view st' ->
  view (process_lines env ls st) = view (process_lines env ls st').
Proof.
  revert st st'; induction ls as [|l ls IH]; simpl; intros st st' H;
    [exact H|].
  apply IH. now apply process_line_congr.
Qed.

Lemma process_lines_app (ls1 ls2 : list cstring) (st : state) :
  process_lines env (ls1 ++ ls2) st
  = process_lines env ls2 (process_lines env ls1 st).
Proof. apply fold_left_app. Qed.

(** The lines seen and the writes attempted by the loop body over a
    sequence of lines. *)
Lemma process_lines_view (ls : list cstring) (st : state) :
  lines (process_lines env ls st) = lines st ++ ls /\
  value_writes (trace (process_lines env ls st)) =
  value_writes (trace st)
    ++ write_attempts env (reg_calls st)
         (changes (lastValueWritten st) (readings ls)).
Proof.
  revert st; induction ls as [|l ls IH]; intros st; simpl.
  - now rewrite !app_nil_r.
  - destruct (IH (process_line env l st)) as [IHl IHw].
    fold (process_lines env ls (process_line env l st)).
    rewrite IHl, IHw. clear IHl IHw IH.
    pose proof (process_line_view l st) as V. unfold view in V.
    destruct (validate l) as [|t|t]; simpl;
      try (injection V as -> -> -> ->; split;
           [now rewrite <- app_assoc | reflexivity]).
    destruct (StdString.eqb t (lastValueWritten st));
      injection V as -> -> -> ->; split;
      try (now rewrite <- app_assoc); reflexivity.
Qed.

End Gate.

(** ** The outer loop *)

Section Loop.

Variable env : Win32.

Lemma iteration_spec (r : read_result) (buf : cstring) (st : state) :
  clean buf ->
  exists segs,
    Forall clean segs /\
    buf ++ payload r
    = concat (map terminated segs) ++ fst (iteration env r (buf, st)) /\
    clean (fst (iteration env r (buf, st))) /\
    view (snd (iteration env r (buf, st)))
    = view (process_lines env (map terminated segs) st).
Proof.
  intros Hbuf. destruct r as [err|data]; simpl.
  - exists []. simpl. rewrite app_nil_r. repeat split; auto.
    rewrite view_emit_sleep.
    destruct (negb _); [rewrite view_emit_print|]; apply view_emit_read.
  - destruct data as [|c data]; simpl.
    + exists []. simpl. rewrite app_nil_r. repeat split; auto.
      rewrite view_emit_sleep. apply view_emit_read.
    + destruct (drain_spec env (buf ++ c :: data) (emit ReadFileCall st))
        as (segs & Hsegs & Hrest & Hc & Hst).
      exists segs. repeat split; auto.
      rewrite Hst. apply process_lines_congr, view_emit_read.
Qed.

Lemma run_loop_spec (reads : list read_result) (buf : cstring) (st : state) :
  clean buf ->
  exists segs,
    Forall clean segs /\
    buf ++ received reads
    = concat (map terminated segs) ++ fst (run_loop env reads (buf, st)) /\
    clean (fst (run_loop env reads (buf, st))) /\
    view (snd (run_loop env reads (buf, st)))
    = view (process_lines env (map terminated segs) st).
Proof.
  revert buf st; induction reads as [|r reads IH]; intros buf st Hbuf.
  - exists []. simpl. unfold received; simpl. rewrite app_nil_r. auto.
  - destruct (iteration_spec r buf st Hbuf) as (segs1 & H1 & E1 & C1 & V1).
    change (run_loop env (r :: reads) (buf, st))
      with (run_loop env reads (iteration env r (buf, st))).
    destruct (iteration env r (buf, st)) as [buf1 st1].
    cbn [fst snd] in *.
    destruct (IH buf1 st1 C1) as (segs2 & H2 & E2 & C2 & V2).
    exists (segs1 ++ segs2). repeat split.
    + apply Forall_app; auto.
    + unfold received in *. cbn [map concat].
      rewrite map_app, concat_app, <- app_assoc, <- E2.
      rewrite !app_assoc. now rewrite E1.
    + exact C2.
    + rewrite V2, map_app, process_lines_app.
      now apply process_lines_congr.
Qed.

(** From an empty buffer: what the loop has seen, kept and written after
    any sequence of reads. *)
Lemma run_loop_from_empty (reads : list read_result) (st : state) :
  let final := run_loop env reads ([], st) in
  let split := split_newline (received reads) in
  fst final = snd split /\
  lines (snd final) = lines st ++ map terminated (fst split) /\
  value_writes (trace (snd final)) =
  value_writes (trace st)
    ++ write_attempts env (reg_calls st)
         (changes (lastValueWritten st)
                  (readings (map terminated (fst split)))).
Proof.
  destruct (run_loop_spec reads [] st (fun x => x))
    as (segs & Hsegs & E & C & V).
  simpl in E. cbv zeta.
  rewrite E, (split_newline_unique _ _ Hsegs C). simpl.
  destruct (process_lines_view env (map terminated segs) st) as [Hl Hw].
  unfold view in V. injection V as _ _ Vw Vl.
  split; [reflexivity | split].
  - exact (eq_trans Vl Hl).
  - exact (eq_trans Vw Hw).
Qed.

End Loop.

(** ** [trim_ascii] *)

Section Trim.

Import CType StdString Strtod.

Lemma skip_spaces_span (rest : cstring) (i : nat) :
  skip_spaces rest i = i + span isspace rest.
Proof.
  revert i; induction rest as [|c rest IH]; intros i; simpl; [lia|].
  destruct (isspace c); [rewrite IH|]; lia.
Qed.

Lemma span_le (p : ascii -> bool) (s : cstring) : span p s <= length s.
Proof. induction s as [|c s IH]; simpl; [|destruct (p c); simpl]; lia. Qed.

Lemma span_all (p : ascii -> bool) (s : cstring) :
  span p s = length s <-> forallb p s = true.
Proof.
  induction s as [|c s IH]; simpl; [tauto|].
  destruct (p c); simpl; [|split; [lia | discriminate]].
  rewrite <- IH. lia.
Qed.

Lemma drop_spaces_skipn (s : cstring) :
  drop_spaces s = skipn (span isspace s) s.
Proof.
  induction s as [|c s IH]; simpl; [reflexivity|].
  destruct (isspace c); [exact IH | reflexivity].
Qed.

Lemma drop_spaces_blank (s : cstring) :
  drop_spaces s = [] <-> blank s = true.
Proof.
  unfold blank. induction s as [|c s IH]; simpl; [tauto|].
  destruct (isspace c); simpl; [exact IH | split; discriminate].
Qed.

Lemma drop_spaces_head (s : cstring) (c : ascii) (t : cstring) :
  drop_spaces s = c :: t -> isspace c = false.
Proof.
  induction s as [|x s IH]; simpl; [discriminate|].
  destruct (isspace x) eqn:E; [exact IH|].
  intros H; inversion H; subst; exact E.
Qed.

Lemma drop_spaces_app_blank (a b : cstring) :
  blank a = true -> drop_spaces (a ++ b) = drop_spaces b.
Proof.
  unfold blank. induction a as [|c a IH]; simpl; [reflexivity|].
  destruct (isspace c); simpl; [exact IH | discriminate].
Qed.

Lemma drop_spaces_app_keep (a b : cstring) :
  drop_spaces a <> [] -> drop_spaces (a ++ b) = drop_spaces a ++ b.
Proof.
  induction a as [|c a IH]; simpl; [congruence|].
  destruct (isspace c); [exact IH | reflexivity].
Qed.

(** A text splits into its leading white space and the rest. *)
Lemma drop_spaces_split (s : cstring) :
  exists sp, s = sp ++ drop_spaces s /\ blank sp = true /\
             length sp = span isspace s.
Proof.
  unfold blank. induction s as [|c s (sp & E & B & L)]; simpl.
  - exists []. auto.
  - destruct (isspace c) eqn:Hc.
    + exists (c :: sp). simpl. rewrite Hc, B, L. repeat split.
      now rewrite <- E.
    + exists []. auto.
Qed.

Lemma trim_scan_end_spec (s : cstring) (start m k : nat) :
  start <= m ->
  (forall j, m < j <= m + k -> isspace (at_ s j) = true) ->
  m = start \/ isspace (at_ s m) = false ->
  trim_scan_end s start (m + k) = m.
Proof.
  intros Hle Hsp Hm. induction k as [|k IH].
  - rewrite Nat.add_0_r. destruct m as [|m]; simpl; [reflexivity|].
    destruct Hm as [-> | ->].
    + now rewrite Nat.ltb_irrefl.
    + now rewrite andb_false_r.
  - rewrite Nat.add_succ_r. simpl.
    rewrite (Hsp (S (m + k))) by lia. rewrite andb_true_r.
    replace (start <? S (m + k)) with true
      by (symmetry; apply Nat.ltb_lt; lia).
    apply IH. intros j Hj. apply Hsp. lia.
Qed.

Lemma blank_rev (s : cstring) : blank (rev s) = blank s.
Proof.
  unfold blank. induction s as [|c s IH]; simpl; [reflexivity|].
  rewrite forallb_app, IH. simpl. rewrite andb_true_r. apply andb_comm.
Qed.

Lemma blank_nth (s : cstring) (i : nat) :
  blank s = true -> i < length s -> isspace (nth i s zero) = true.
Proof.
  unfold blank. revert i; induction s as [|c s IH]; simpl; intros i B L;
    [lia|].
  apply andb_prop in B as [Bc Bs]. destruct i; [exact Bc|].
  apply IH; [exact Bs | lia].
Qed.

(** [trim_ascii] drops the white space at both ends. *)
Lemma trim_ascii_strip (s : cstring) : trim_ascii s = strip s.
Proof.
  unfold trim_ascii, strip.
  rewrite skip_spaces_span. simpl.
  destruct (drop_spaces_split s) as (pre & Es & Bpre & Lpre).
  destruct (drop_spaces s) as [|c t] eqn:Ht.
  - (* all white space *)
    rewrite app_nil_r in Es. subst pre.
    rewrite <- Lpre, Nat.eqb_refl. reflexivity.
  - pose proof (drop_spaces_head _ _ _ Ht) as Hc.
    destruct (drop_spaces_split (rev (c :: t))) as (post & Er & Bpost & _).
    set (u := rev (drop_spaces (rev (c :: t)))) in *.
    assert (c :: t = u ++ rev post) as Et.
    { rewrite <- (rev_involutive (c :: t)), Er, rev_app_distr. reflexivity. }
    (* [u] is not empty and ends with a character that is not white space *)
    assert (exists u' x, u = u' ++ [x] /\ isspace x = false) as (u' & x & Eu & Hx).
    { unfold u. destruct (drop_spaces (rev (c :: t))) as [|x b] eqn:Hb.
      - exfalso. apply drop_spaces_blank in Hb. rewrite blank_rev in Hb.
        unfold blank in Hb. simpl in Hb. now rewrite Hc in Hb.
      - exists (rev b), x. split; [reflexivity|].
        exact (drop_spaces_head _ _ _ Hb). }
    assert (span isspace s <> length s) as Hne.
    { rewrite <- Lpre, Es at 1. rewrite length_app. simpl. lia. }
    apply Nat.eqb_neq in Hne. rewrite Hne.
    rewrite <- Lpre.
    assert (length s - 1 = (length pre + length u') + length post) as Hlast.
    { rewrite Es, Et, Eu. rewrite !length_app, length_rev. simpl. lia. }
    rewrite Hlast, trim_scan_end_spec.
    + unfold substr. rewrite Es at 1.
      rewrite skipn_app, skipn_all, Nat.sub_diag. simpl skipn. simpl app.
      rewrite Et.
      replace (length pre + length u' - length pre + 1) with (length u + 0)
        by (rewrite Eu, length_app; simpl; lia).
      rewrite firstn_app_2. simpl. now rewrite app_nil_r.
    + lia.
    + intros j Hj. unfold at_.
      rewrite Es, Et, Eu.
      rewrite app_nth2 by lia. rewrite app_nth2 by (rewrite length_app; simpl; lia).
      apply blank_nth; [now rewrite blank_rev|].
      rewrite length_app, length_rev. simpl. lia.
    + right. unfold at_. rewrite Es, Et, Eu.
      rewrite app_nth2 by lia. rewrite <- app_assoc.
      rewrite app_nth2 by lia.
      replace (length pre + length u' - length pre - length u') with 0 by lia.
      exact Hx.
Qed.

Lemma strip_blank (s : cstring) : strip s = [] <-> blank s = true.
Proof.
  unfold strip. split.
  - intros H. apply (f_equal (@rev ascii)) in H.
    rewrite rev_involutive in H. simpl in H.
    apply drop_spaces_blank in H. rewrite blank_rev in H.
    destruct (drop_spaces s) eqn:E; [now apply drop_spaces_blank|].
    apply drop_spaces_head in E. unfold blank in H. simpl in H.
    now rewrite E in H.
  - intros H. apply drop_spaces_blank in H. now rewrite H.
Qed.

(** A trimmed text that is not empty ends with a character that is not
    white space, and begins with one. *)
Lemma strip_last (s u : cstring) (x : ascii) :
  strip s = u ++ [x] -> isspace x = false.
Proof.
  unfold strip. intros H. apply (f_equal (@rev ascii)) in H.
  rewrite rev_involutive, rev_app_distr in H. simpl in H.
  exact (drop_spaces_head _ _ _ H).
Qed.

Lemma strip_head (s t : cstring) (c : ascii) :
  strip s = c :: t -> isspace c = false.
Proof.
  unfold strip. intros H.
  destruct (drop_spaces s) as [|d r] eqn:E; [discriminate H|].
  pose proof (drop_spaces_head _ _ _ E) as Hd.
  destruct (drop_spaces_split (rev (d :: r))) as (sp & Er & _ & _).
  apply (f_equal (@rev ascii)) in Er.
  rewrite rev_involutive, rev_app_distr, H in Er.
  simpl in Er. injection Er as <- _. exact Hd.
Qed.

(** White space added at the end is trimmed away. *)
Lemma strip_app_blank (s sp : cstring) :
  blank sp = true -> strip (s ++ sp) = strip s.
Proof.
  intros B. unfold strip.
  destruct (drop_spaces s) as [|c t] eqn:E.
  - apply drop_spaces_blank in E.
    rewrite drop_spaces_app_blank by exact E.
    apply drop_spaces_blank in B. now rewrite B.
  - rewrite drop_spaces_app_keep by (rewrite E; discriminate).
    rewrite E, rev_app_distr, drop_spaces_app_blank; [reflexivity|].
    now rewrite blank_rev.
Qed.

Lemma span_stops_before_last (w : cstring) (x : ascii) :
  isspace x = false -> span isspace (w ++ [x]) < length (w ++ [x]).
Proof.
  intros Hx. induction w as [|c w IH]; simpl.
  - rewrite Hx. lia.
  - destruct (isspace c); lia.
Qed.

End Trim.

(** ** The validator *)

Section Validator.

Import CType StdString Strtod.

(** On a trimmed text the scan over white space after [std::stod] cannot
    reach the end unless [std::stod] did: the text is valid exactly when
    [std::stod] returns with [idx] at its end. *)
Lemma valid_number_trimmed (s : cstring) :
  valid_number (trim_ascii s) = true <->
  stod (trim_ascii s) = inr (length (trim_ascii s)).
Proof.
  rewrite trim_ascii_strip. unfold valid_number.
  destruct (stod (strip s)) as [e|idx]; [split; discriminate|].
  rewrite skip_spaces_span, Nat.eqb_eq.
  destruct (Nat.lt_trichotomy idx (length (strip s))) as [Hlt|[->|Hgt]].
  - (* characters are left, and the last of them is not white space *)
    assert (strip s <> []) as Hne
        by (intros E; rewrite E in Hlt; simpl in Hlt; lia).
    destruct (exists_last Hne) as (u & x & Et).
    pose proof (strip_last _ _ _ Et) as Hx. rewrite Et in *. clear Hne Et.
    rewrite length_app in Hlt. simpl in Hlt.
    assert (skipn idx (u ++ [x]) = skipn idx u ++ [x]) as ->.
    { rewrite skipn_app. replace (idx - length u) with 0 by lia.
      reflexivity. }
    pose proof (span_stops_before_last (skipn idx u) x Hx) as Hs.
    rewrite length_app, length_skipn in *. simpl in *.
    split; [lia | intros [= E]; lia].
  - rewrite skipn_all. simpl. split; [reflexivity | lia].
  - rewrite skipn_all2 by lia. simpl.
    split; [lia | intros [= E]; lia].
Qed.

Lemma empty_nil (s : cstring) : empty s = true <-> s = [].
Proof. destruct s; simpl; split; congruence. Qed.

Lemma validate_skipped (line : cstring) :
  validate line = Skipped <-> blank line = true.
Proof.
  unfold validate. rewrite <- strip_blank, <- trim_ascii_strip.
  destruct (trim_ascii line); simpl; [tauto|].
  destruct (valid_number _); split; discriminate.
Qed.

Lemma validate_reading (line t : cstring) :
  validate line = Reading t <->
  t = trim_ascii line /\ t <> [] /\ stod t = inr (length t).
Proof.
  unfold validate.
  destruct (empty (trim_ascii line)) eqn:He.
  - apply empty_nil in He. rewrite He.
    split; [discriminate | intros (-> & H & _); congruence].
  - assert (trim_ascii line <> []) as Hne
        by (intros E; rewrite E in He; discriminate).
    destruct (valid_number (trim_ascii line)) eqn:Hv.
    + apply valid_number_trimmed in Hv.
      split; [intros [= <-]; auto | intros (-> & _ & _); reflexivity].
    + split; [discriminate|]. intros (-> & _ & H).
      apply valid_number_trimmed in H. congruence.
Qed.

Lemma validate_rejected (line t : cstring) :
  validate line = Rejected t <->
  t = trim_ascii line /\ t <> [] /\ stod t <> inr (length t).
Proof.
  unfold validate.
  destruct (empty (trim_ascii line)) eqn:He.
  - apply empty_nil in He. rewrite He.
    split; [discriminate | intros (-> & H & _); congruence].
  - assert (trim_ascii line <> []) as Hne
        by (intros E; rewrite E in He; discriminate).
    destruct (valid_number (trim_ascii line)) eqn:Hv.
    + apply valid_number_trimmed in Hv.
      split; [discriminate | intros (-> & _ & H); congruence].
    + split; [intros [= <-] | intros (-> & _ & _); reflexivity].
      repeat split; auto. intros H.
      apply valid_number_trimmed in H. congruence.
Qed.

End Validator.

(** ** [strtod] and the grammar of floating literals *)

Section StrtodFacts.

Import CType StdString Strtod Literal.

(** Case analysis on all 256 characters. *)
Ltac each_char c :=
  destruct c as [[|] [|] [|] [|] [|] [|] [|] [|]]; vm_compute.

Lemma span_prefix (p : ascii -> bool) (s : cstring) :
  all p (firstn (span p s) s).
Proof.
  unfold all. induction s as [|c s IH]; simpl; [reflexivity|].
  destruct (p c) eqn:E; simpl; [now rewrite E|reflexivity].
Qed.

Lemma span_firstn_length (p : ascii -> bool) (s : cstring) :
  length (firstn (span p s) s) = span p s.
Proof. apply firstn_length_le, span_le. Qed.

Lemma span_stops (p : ascii -> bool) (s : cstring) :
  stops p (skipn (span p s) s).
Proof.
  induction s as [|c s IH]; simpl; [exact I|].
  destruct (p c) eqn:E; simpl; [exact IH | exact E].
Qed.

Lemma span_app (p : ascii -> bool) (a rest : cstring) :
  all p a -> stops p rest -> span p (a ++ rest) = length a.
Proof.
  unfold all. intros Ha Hr. induction a as [|c a IH]; simpl.
  - destruct rest as [|c rest]; simpl in *; [reflexivity | now rewrite Hr].
  - simpl in Ha. apply andb_prop in Ha as [-> Ha]. now rewrite IH.
Qed.

Lemma skipn_app_length (a b : cstring) : skipn (length a) (a ++ b) = b.
Proof.
  rewrite skipn_app, skipn_all, Nat.sub_diag. reflexivity.
Qed.

Lemma firstn_app_length (a b : cstring) : firstn (length a) (a ++ b) = a.
Proof.
  rewrite <- (Nat.add_0_r (length a)), firstn_app_2. simpl.
  apply app_nil_r.
Qed.

Lemma all_nonempty_length (s : cstring) : s <> [] <-> length s <> 0.
Proof. destruct s; simpl; split; congruence. Qed.

(** *** Soundness: what [strtod] consumes is a literal *)

Lemma parse_sign_sound (s : cstring) :
  exists sg, sign_text sg /\ s = sg ++ skipn (fst (parse_sign s)) s /\
             fst (parse_sign s) = length sg /\
             snd (parse_sign s) = negative sg.
Proof.
  destruct s as [|c s]; simpl.
  - exists []. repeat split. constructor.
  - destruct (Ascii.eqb_spec c "+"%char) as [-> | _]; simpl.
    + exists ["+"%char]. repeat split. constructor.
    + destruct (Ascii.eqb_spec c "-"%char) as [-> | _]; simpl.
      * exists ["-"%char]. repeat split. constructor.
      * exists []. repeat split. constructor.
Qed.

Lemma parse_digits_sound (isd : ascii -> bool) (b : Z) (s : cstring)
      (n : nat) (m : Z) (f : nat) :
  parse_digits isd b s = Some (n, m, f) ->
  exists txt ip fp,
    digits_text isd txt ip fp /\ s = txt ++ skipn n s /\ n = length txt /\
    m = digits_value b (ip ++ fp) /\ f = length fp.
Proof.
  unfold parse_digits.
  set (i := span isd s).
  assert (forall r,
             (if i =? 0 then None
              else Some (i, digits_value b (firstn i s), 0)) = Some r ->
             r = (n, m, f) ->
             exists txt ip fp,
               digits_text isd txt ip fp /\ s = txt ++ skipn n s /\
               n = length txt /\ m = digits_value b (ip ++ fp) /\
               f = length fp) as Plain.
  { intros r H Hr. destruct (Nat.eqb_spec i 0) as [_|Hi]; [discriminate|].
    injection H as <-. injection Hr as <- <- <-.
    exists (firstn i s), (firstn i s), [].
    rewrite app_nil_r. repeat split.
    - constructor; [|apply span_prefix].
      apply all_nonempty_length. unfold i in *.
      now rewrite span_firstn_length.
    - symmetry. apply firstn_skipn.
    - symmetry. apply span_firstn_length. }
  destruct (skipn i s) as [|c s2] eqn:Hs; [intros H; now apply (Plain _ H)|].
  destruct (Ascii.eqb_spec c "."%char) as [-> | _];
    [|intros H; now apply (Plain _ H)].
  clear Plain. set (j := span isd s2).
  destruct (Nat.eqb_spec (i + j) 0) as [_|Hij]; [discriminate|].
  intros [= <- <- <-].
  assert (s = firstn i s ++ "."%char :: firstn j s2 ++ skipn j s2) as Es.
  { rewrite (firstn_skipn j s2), <- Hs. symmetry. apply firstn_skipn. }
  assert (length (firstn i s) = i) as Li by apply span_firstn_length.
  assert (length (firstn j s2) = j) as Lj by apply span_firstn_length.
  exists (firstn i s ++ "."%char :: firstn j s2), (firstn i s), (firstn j s2).
  repeat split.
  - constructor; try apply span_prefix.
    apply all_nonempty_length. rewrite length_app. lia.
  - replace (i + 1 + j) with (S j + i) by lia.
    rewrite <- skipn_skipn, Hs. simpl skipn.
    rewrite <- app_assoc. exact Es.
  - rewrite length_app. simpl. lia.
  - symmetry. exact Lj.
Qed.

Lemma parse_exponent_sound (marker : ascii) (s : cstring) (k : nat) (e : Z) :
  parse_exponent marker s = (k, e) ->
  exists ex,
    exponent_text marker ex e /\ s = ex ++ skipn k s /\ k = length ex.
Proof.
  assert ((0, 0%Z) = (k, e) ->
          exists ex, exponent_text marker ex e /\ s = ex ++ skipn k s /\
                     k = length ex) as None_.
  { intros [= <- <-]. exists []. repeat split. constructor. }
  unfold parse_exponent. destruct s as [|c s1]; [exact None_|].
  destruct (Ascii.eqb_spec (tolower c) marker) as [Hc|_]; [|exact None_].
  destruct (parse_sign_sound s1) as (sg & Hsg & Es1 & Lsg & Nsg).
  destruct (parse_sign s1) as [ks neg]. simpl in Es1, Lsg, Nsg.
  set (s2 := skipn ks s1) in *. set (d := span isdigit s2).
  destruct (Nat.eqb_spec d 0) as [_|Hd]; [exact None_|].
  intros [= <- <-]. clear None_.
  exists (c :: sg ++ firstn d s2). repeat split.
  - subst neg. constructor; auto.
    + apply all_nonempty_length. unfold d in *.
      now rewrite span_firstn_length.
    + apply span_prefix.
  - simpl. f_equal. rewrite (Nat.add_comm ks d), <- skipn_skipn. fold s2.
    rewrite <- app_assoc, firstn_skipn. exact Es1.
  - simpl. rewrite length_app. unfold d. rewrite span_firstn_length. lia.
Qed.

Lemma parse_decimal_sound (s : cstring) (n : nat) (v : number) :
  parse_decimal s = Some (n, v) ->
  exists lit, unsigned_literal lit v /\ s = lit ++ skipn n s /\
              n = length lit.
Proof.
  unfold parse_decimal.
  destruct (parse_digits isdigit 10 s) as [[[nd m] f]|] eqn:Hd;
    [|discriminate].
  apply parse_digits_sound in Hd as (txt & ip & fp & Ht & Es & -> & -> & ->).
  destruct (parse_exponent "e"%char (skipn (length txt) s)) as [k e] eqn:He.
  apply parse_exponent_sound in He as (ex & Hex & Ee & ->).
  intros [= <- <-]. exists (txt ++ ex). repeat split.
  - now constructor.
  - rewrite Nat.add_comm, <- skipn_skipn, <- app_assoc, <- Ee. exact Es.
  - symmetry. apply length_app.
Qed.

Lemma parse_hex_sound (s : cstring) (n : nat) (v : number) :
  parse_hex s = Some (n, v) ->
  exists lit, unsigned_literal lit v /\ s = lit ++ skipn n s /\
              n = length lit.
Proof.
  unfold parse_hex. destruct s as [|z [|x s1]]; try discriminate.
  destruct (Ascii.eqb_spec z "0"%char) as [-> | _]; [|discriminate].
  destruct (Ascii.eqb_spec (tolower x) "x"%char) as [Hx|_]; [|discriminate].
  simpl andb. cbv iota.
  destruct (parse_digits isxdigit 16 s1) as [[[nd m] f]|] eqn:Hd;
    [|discriminate].
  apply parse_digits_sound in Hd as (txt & ip & fp & Ht & Es & -> & -> & ->).
  destruct (parse_exponent "p"%char (skipn (length txt) s1)) as [k e] eqn:He.
  apply parse_exponent_sound in He as (ex & Hex & Ee & ->).
  intros [= <- <-]. exists ("0"%char :: x :: txt ++ ex). repeat split.
  - now constructor.
  - simpl. do 2 f_equal.
    rewrite (Nat.add_comm (length txt)), <- skipn_skipn, <- app_assoc, <- Ee.
    exact Es.
  - simpl. rewrite length_app. lia.
Qed.

Lemma prefix_nocase_sound (word s : cstring) :
  prefix_nocase word s = true ->
  map tolower (firstn (length word) s) = word /\
  length (firstn (length word) s) = length word.
Proof.
  revert s; induction word as [|w word IH]; intros s; simpl; [auto|].
  destruct s as [|c s]; [discriminate|]. intros H.
  apply andb_prop in H as [Hc Hs].
  apply Ascii.eqb_eq in Hc. destruct (IH s Hs) as [E L].
  simpl. now rewrite Hc, E, L.
Qed.

Lemma parse_inf_sound (s : cstring) (n : nat) (v : number) :
  parse_inf s = Some (n, v) ->
  exists lit, unsigned_literal lit v /\ s = lit ++ skipn n s /\
              n = length lit.
Proof.
  unfold parse_inf.
  destruct (prefix_nocase (str "infinity") s) eqn:H8.
  - intros [= <- <-]. apply prefix_nocase_sound in H8 as [E L].
    exists (firstn 8 s). repeat split.
    + constructor. now right.
    + symmetry. apply firstn_skipn.
    + symmetry. exact L.
  - destruct (prefix_nocase (str "inf") s) eqn:H3; [|discriminate].
    intros [= <- <-]. apply prefix_nocase_sound in H3 as [E L].
    exists (firstn 3 s). repeat split.
    + constructor. now left.
    + symmetry. apply firstn_skipn.
    + symmetry. exact L.
Qed.

Lemma parse_nan_sound (s : cstring) (n : nat) (v : number) :
  parse_nan s = Some (n, v) ->
  exists lit, unsigned_literal lit v /\ s = lit ++ skipn n s /\
              n = length lit.
Proof.
  unfold parse_nan.
  destruct (prefix_nocase (str "nan") s) eqn:H3; [|discriminate].
  apply prefix_nocase_sound in H3 as [E L].
  change (length (str "nan")) with 3 in *.
  assert (Some (3, NotANumber) = Some (n, v) ->
          exists lit, unsigned_literal lit v /\ s = lit ++ skipn n s /\
                      n = length lit) as Bare.
  { intros [= <- <-]. exists (firstn 3 s). repeat split.
    - now constructor.
    - symmetry. apply firstn_skipn.
    - symmetry. exact L. }
  destruct (skipn 3 s) as [|c s1] eqn:Hs; [exact Bare|].
  set (k := span isnchar s1).
  destruct (skipn k s1) as [|d s2] eqn:Hs1; [exact Bare|].
  destruct (Ascii.eqb_spec c "("%char) as [-> | _]; [|exact Bare].
  destruct (Ascii.eqb_spec d ")"%char) as [-> | _]; [|exact Bare].
  simpl andb. cbv iota. intros [= <- <-]. clear Bare.
  exists (firstn 3 s ++ "("%char :: firstn k s1 ++ [")"%char]).
  assert (length (firstn k s1) = k) as Lk by apply span_firstn_length.
  repeat split.
  - constructor; [exact E | apply span_prefix].
  - match goal with
    | |- _ = _ ++ skipn ?n s => assert (skipn n s = s2) as ->
    end.
    { match goal with
      | |- skipn ?n s = _ => replace n with (1 + (k + (1 + 3))) by lia
      end.
      rewrite <- (skipn_skipn 1 (k + (1 + 3))).
      rewrite <- (skipn_skipn k (1 + 3)).
      rewrite <- (skipn_skipn 1 3), Hs.
      change (skipn 1 ("("%char :: s1)) with s1. now rewrite Hs1. }
    rewrite <- app_assoc, <- app_comm_cons, <- app_assoc. cbn [app].
    rewrite <- Hs1, firstn_skipn, <- Hs. symmetry. apply firstn_skipn.
  - rewrite length_app. cbn [length]. rewrite length_app. cbn [length].
    rewrite L, Lk. lia.
Qed.

Lemma parse_number_sound (s : cstring) (n : nat) (v : number) :
  parse_number s = Some (n, v) ->
  exists lit, unsigned_literal lit v /\ s = lit ++ skipn n s /\
              n = length lit.
Proof.
  unfold parse_number.
  destruct (parse_hex s) as [r|] eqn:Hh.
  { intros [= ->]. now apply parse_hex_sound. }
  destruct (parse_decimal s) as [r|] eqn:Hd.
  { intros [= ->]. now apply parse_decimal_sound. }
  destruct (parse_inf s) as [r|] eqn:Hi.
  { intros [= ->]. now apply parse_inf_sound. }
  apply parse_nan_sound.
Qed.

(** What [strtod] consumes is white space followed by a literal. *)
Lemma strtod_sound (s : cstring) (n : nat) (v : number) :
  strtod s = Some (n, v) ->
  exists w lit,
    blank w = true /\ length w = span isspace s /\ float_literal lit v /\
    s = w ++ lit ++ skipn n s /\ n = length w + length lit.
Proof.
  unfold strtod.
  set (w := span isspace s). set (s1 := skipn w s).
  destruct (parse_sign_sound s1) as (sg & Hsg & Es1 & Lsg & _).
  set (k := fst (parse_sign s1)) in *.
  destruct (parse_number (skipn k s1)) as [[m v']|] eqn:Hn; [|discriminate].
  apply parse_number_sound in Hn as (lit & Hlit & El & ->).
  intros [= <- <-].
  exists (firstn w s), (sg ++ lit).
  assert (length (firstn w s) = w) as Lw by apply span_firstn_length.
  repeat split.
  - apply span_prefix.
  - exact Lw.
  - exists sg, lit. auto.
  - replace (w + k + length lit) with (length lit + k + w) by lia.
    rewrite <- !skipn_skipn. fold s1.
    rewrite <- app_assoc, <- El, <- Es1. symmetry. apply firstn_skipn.
  - rewrite length_app. lia.
Qed.

(** *** Completeness: a literal is consumed in full *)

Lemma digit_or_radix_facts (c : ascii) :
  isdigit c || Ascii.eqb c "."%char = true ->
  isspace c = false /\ c <> "+"%char /\ c <> "-"%char /\
  Ascii.eqb (tolower c) "x"%char = false.
Proof. each_char c; intros; repeat split; congruence. Qed.

Lemma digit_facts (c : ascii) :
  isdigit c = true -> c <> "+"%char /\ c <> "-"%char.
Proof. each_char c; intros; repeat split; congruence. Qed.

Lemma marker_e_facts (c : ascii) :
  tolower c = "e"%char ->
  isdigit c = false /\ Ascii.eqb c "."%char = false /\
  Ascii.eqb (tolower c) "x"%char = false.
Proof. each_char c; intros; repeat split; congruence. Qed.

Lemma marker_p_facts (c : ascii) :
  tolower c = "p"%char ->
  isxdigit c = false /\ Ascii.eqb c "."%char = false.
Proof. each_char c; intros; repeat split; congruence. Qed.

Lemma letter_facts (c : ascii) :
  tolower c = "i"%char \/ tolower c = "n"%char ->
  isspace c = false /\ c <> "+"%char /\ c <> "-"%char /\
  isdigit c = false /\ Ascii.eqb c "."%char = false /\
  Ascii.eqb c "0"%char = false.
Proof. each_char c; intros [H|H]; repeat split; congruence. Qed.

Lemma xdigit_zero_facts (c : ascii) :
  c = "0"%char -> isspace c = false /\ c <> "+"%char /\ c <> "-"%char.
Proof. intros ->. repeat split; discriminate. Qed.

Lemma parse_sign_complete (sg u : cstring) :
  sign_text sg -> unsigned_head u ->
  parse_sign (sg ++ u) = (length sg, negative sg).
Proof.
  intros Hsg Hu. destruct Hsg; simpl; try reflexivity.
  destruct u as [|c u]; simpl in *; [reflexivity|].
  destruct Hu as [Hp Hm].
  destruct (Ascii.eqb_spec c "+"%char); [contradiction|].
  destruct (Ascii.eqb_spec c "-"%char); [contradiction|]. reflexivity.
Qed.

Lemma digits_text_nonempty (isd : ascii -> bool) (txt ip fp : cstring) :
  digits_text isd txt ip fp -> txt <> [].
Proof.
  intros [ip' Hne _ | ip' fp' _ _ _]; [assumption|].
  destruct ip'; discriminate.
Qed.

Lemma digits_text_chars (isd : ascii -> bool) (txt ip fp : cstring) :
  digits_text isd txt ip fp ->
  all (fun c => isd c || Ascii.eqb c "."%char) txt.
Proof.
  assert (forall s, all isd s ->
                    all (fun c => isd c || Ascii.eqb c "."%char) s) as W.
  { unfold all. induction s as [|c s IH]; simpl; [reflexivity|].
    intros H. apply andb_prop in H as [-> H]. simpl. now apply IH. }
  unfold all in *. intros [ip' Hne Hip | ip' fp' Hne Hip Hfp].
  - now apply W.
  - rewrite forallb_app. simpl. rewrite (W _ Hip), (W _ Hfp).
    now rewrite orb_true_r.
Qed.

Lemma parse_digits_complete (isd : ascii -> bool) (b : Z)
      (txt ip fp rest : cstring) :
  digits_text isd txt ip fp ->
  isd "."%char = false ->
  stops (fun c => isd c || Ascii.eqb c "."%char) rest ->
  parse_digits isd b (txt ++ rest)
  = Some (length txt, digits_value b (ip ++ fp), length fp).
Proof.
  intros Ht Hdot Hrest.
  assert (stops isd rest) as Hrest'.
  { destruct rest as [|c rest]; simpl in *; [exact I|].
    now apply orb_false_elim in Hrest. }
  unfold parse_digits. destruct Ht as [ip Hne Hip | ip fp Hne Hip Hfp].
  - rewrite (span_app _ _ _ Hip Hrest'), skipn_app_length, firstn_app_length.
    rewrite app_nil_r.
    apply all_nonempty_length in Hne. apply Nat.eqb_neq in Hne.
    rewrite Hne.
    destruct rest as [|c rest]; [reflexivity|]. simpl in Hrest.
    apply orb_false_elim in Hrest as [_ ->]. reflexivity.
  - rewrite <- app_assoc.
    rewrite (span_app isd ip _ Hip) by exact Hdot.
    rewrite skipn_app_length, firstn_app_length.
    rewrite <- app_comm_cons.
    rewrite (span_app isd fp rest Hfp Hrest'), firstn_app_length.
    simpl Ascii.eqb. cbv iota.
    apply all_nonempty_length in Hne. rewrite length_app in Hne.
    apply Nat.eqb_neq in Hne. rewrite Hne.
    rewrite length_app. simpl length.
    now replace (length ip + S (length fp))
      with (length ip + 1 + length fp) by lia.
Qed.

Lemma all_span (p : ascii -> bool) (s : cstring) :
  all p s -> span p s = length s.
Proof. intros H. now apply span_all. Qed.

Lemma parse_exponent_complete (marker : ascii) (ex : cstring) (e : Z) :
  exponent_text marker ex e -> parse_exponent marker ex = (length ex, e).
Proof.
  intros [|c sg ds Hc Hsg Hne Hds]; [reflexivity|].
  unfold parse_exponent.
  apply Ascii.eqb_eq in Hc. rewrite Hc.
  rewrite parse_sign_complete; [|exact Hsg|].
  - rewrite skipn_app_length, (all_span _ _ Hds), firstn_all.
    apply all_nonempty_length in Hne. apply Nat.eqb_neq in Hne.
    rewrite Hne. simpl length. now rewrite length_app.
  - destruct ds as [|d ds]; [exact I|]. unfold all in Hds. simpl in *.
    apply andb_prop in Hds as [Hd _]. now apply digit_facts.
Qed.

Lemma parse_decimal_complete (m ip fp ex : cstring) (e : Z) :
  digits_text isdigit m ip fp -> exponent_text "e"%char ex e ->
  parse_decimal (m ++ ex)
  = Some (length (m ++ ex),
          Finite 10 (digits_value 10 (ip ++ fp)) (e - Z.of_nat (length fp))).
Proof.
  intros Hm Hex. unfold parse_decimal.
  rewrite (parse_digits_complete _ _ _ _ _ _ Hm); [|reflexivity|].
  - rewrite skipn_app_length, (parse_exponent_complete _ _ _ Hex).
    now rewrite length_app.
  - destruct Hex as [|c sg ds Hc _ _ _]; simpl; [exact I|].
    apply marker_e_facts in Hc as (-> & -> & _). reflexivity.
Qed.

Lemma parse_hex_complete (x : ascii) (m ip fp ex : cstring) (e : Z) :
  tolower x = "x"%char ->
  digits_text isxdigit m ip fp -> exponent_text "p"%char ex e ->
  parse_hex ("0"%char :: x :: m ++ ex)
  = Some (length ("0"%char :: x :: m ++ ex),
          Finite 2 (digits_value 16 (ip ++ fp))
                 (e - 4 * Z.of_nat (length fp))).
Proof.
  intros Hx Hm Hex. unfold parse_hex.
  apply Ascii.eqb_eq in Hx. rewrite Hx. simpl andb. cbv iota.
  rewrite (parse_digits_complete _ _ _ _ _ _ Hm); [|reflexivity|].
  - rewrite skipn_app_length, (parse_exponent_complete _ _ _ Hex).
    simpl length. now rewrite length_app.
  - destruct Hex as [|c sg ds Hc _ _ _]; simpl; [exact I|].
    apply marker_p_facts in Hc as (-> & ->). reflexivity.
Qed.

(** A decimal literal is not taken for a hexadecimal one. *)
Lemma parse_hex_decimal (m ip fp ex : cstring) (e : Z) :
  digits_text isdigit m ip fp -> exponent_text "e"%char ex e ->
  parse_hex (m ++ ex) = None.
Proof.
  intros Hm Hex.
  pose proof (digits_text_nonempty _ _ _ _ Hm) as Hne.
  pose proof (digits_text_chars _ _ _ _ Hm) as Hch. unfold all in Hch.
  unfold parse_hex.
  destruct m as [|a [|b m']]; [contradiction| |]; simpl.
  - destruct Hex as [|c sg ds Hc _ _ _]; [reflexivity|].
    apply marker_e_facts in Hc as (_ & _ & ->).
    now rewrite andb_false_r.
  - simpl in Hch. apply andb_prop in Hch as [_ Hch].
    apply andb_prop in Hch as [Hb _].
    apply digit_or_radix_facts in Hb as (_ & _ & _ & ->).
    now rewrite andb_false_r.
Qed.

Lemma prefix_nocase_complete (word w rest : cstring) :
  map tolower w = word -> prefix_nocase word (w ++ rest) = true.
Proof.
  intros <-. induction w as [|c w IH]; simpl; [reflexivity|].
  now rewrite Ascii.eqb_refl, IH.
Qed.

Lemma prefix_nocase_short (word s : cstring) :
  length s < length word -> prefix_nocase word s = false.
Proof.
  revert s; induction word as [|w word IH]; intros s; simpl; [lia|].
  destruct s as [|c s]; simpl; [reflexivity|]. intros H.
  rewrite IH by lia. apply andb_false_r.
Qed.

Lemma prefix_nocase_head (word s : cstring) (a c : ascii) :
  tolower c <> a -> prefix_nocase (a :: word) (c :: s) = false.
Proof.
  intros H. simpl. now destruct (Ascii.eqb_spec (tolower c) a).
Qed.

(** A word of letters beginning with "i" or "n" is neither a hexadecimal
    nor a decimal number. *)
Lemma parse_hex_decimal_letters (c : ascii) (s : cstring) :
  tolower c = "i"%char \/ tolower c = "n"%char ->
  parse_hex (c :: s) = None /\ parse_decimal (c :: s) = None.
Proof.
  intros H. apply letter_facts in H as (_ & _ & _ & Hd & Hr & Hz).
  split.
  - unfold parse_hex. destruct s; [reflexivity|]. now rewrite Hz.
  - unfold parse_decimal, parse_digits. simpl. rewrite Hd. simpl.
    now rewrite Hr.
Qed.

Lemma map_tolower_length (w word : cstring) :
  map tolower w = word -> length w = length word.
Proof. intros <-. symmetry. apply length_map. Qed.

Lemma map_tolower_head (w word : cstring) (a : ascii) :
  map tolower w = a :: word -> exists c r, w = c :: r /\ tolower c = a.
Proof.
  destruct w as [|c r]; simpl; [discriminate|].
  intros [= H _]. now exists c, r.
Qed.

Lemma parse_number_complete (u : cstring) (v : number) :
  unsigned_literal u v -> parse_number u = Some (length u, v).
Proof.
  intros [m ip fp ex e Hm Hex | x m ip fp ex e Hx Hm Hex
          | w Hw | w Hw | w cs Hw Hcs]; unfold parse_number.
  - now rewrite (parse_hex_decimal _ _ _ _ _ Hm Hex),
      (parse_decimal_complete _ _ _ _ _ Hm Hex).
  - now rewrite (parse_hex_complete _ _ _ _ _ _ Hx Hm Hex).
  - assert (exists c r, w = c :: r /\ tolower c = "i"%char)
      as (c & r & -> & Hc)
        by (destruct Hw as [Hw|Hw]; now apply map_tolower_head in Hw).
    destruct (parse_hex_decimal_letters c r (or_introl Hc)) as [-> ->].
    unfold parse_inf. destruct Hw as [Hw|Hw].
    + rewrite prefix_nocase_short
        by (rewrite (map_tolower_length _ _ Hw); simpl; lia).
      rewrite <- (app_nil_r (c :: r)) at 1.
      rewrite (prefix_nocase_complete _ _ _ Hw).
      now rewrite (map_tolower_length _ _ Hw).
    + rewrite <- (app_nil_r (c :: r)) at 1.
      rewrite (prefix_nocase_complete _ _ _ Hw).
      now rewrite (map_tolower_length _ _ Hw).
  - destruct (map_tolower_head _ _ _ Hw) as (c & r & -> & Hc).
    destruct (parse_hex_decimal_letters c r (or_intror Hc)) as [-> ->].
    unfold parse_inf, str. cbn [list_ascii_of_string].
    rewrite !prefix_nocase_head by (rewrite Hc; discriminate).
    unfold parse_nan.
    rewrite <- (app_nil_r (c :: r)) at 1.
    rewrite (prefix_nocase_complete _ _ _ Hw).
    pose proof (map_tolower_length _ _ Hw) as L.
    change (length (str "nan")) with 3 in L. rewrite <- L at 1.
    rewrite skipn_all. now rewrite L.
  - destruct (map_tolower_head _ _ _ Hw) as (c & r & -> & Hc).
    rewrite <- app_comm_cons.
    destruct (parse_hex_decimal_letters c (r ++ "("%char :: cs ++ [")"%char])
                                        (or_intror Hc)) as [-> ->].
    unfold parse_inf, str. cbn [list_ascii_of_string].
    rewrite !prefix_nocase_head by (rewrite Hc; discriminate).
    unfold parse_nan.
    rewrite app_comm_cons, (prefix_nocase_complete _ _ _ Hw).
    pose proof (map_tolower_length _ _ Hw) as L.
    change (length (str "nan")) with 3 in L. rewrite <- L at 1.
    rewrite skipn_app_length.
    rewrite (span_app isnchar cs [")"%char] Hcs) by reflexivity.
    rewrite skipn_app_length. simpl andb. cbv iota.
    rewrite length_app, L. cbn [length]. rewrite length_app. cbn [length].
    do 2 f_equal; lia.
Qed.

(** A literal begins with a character that is neither white space nor a
    sign. *)
Lemma unsigned_literal_head (u : cstring) (v : number) :
  unsigned_literal u v ->
  exists c r, u = c :: r /\ isspace c = false /\
              c <> "+"%char /\ c <> "-"%char.
Proof.
  intros [m ip fp ex e Hm Hex | x m ip fp ex e Hx Hm Hex
          | w Hw | w Hw | w cs Hw Hcs].
  - pose proof (digits_text_nonempty _ _ _ _ Hm) as Hne.
    pose proof (digits_text_chars _ _ _ _ Hm) as Hch. unfold all in Hch.
    destruct m as [|a m]; [contradiction|]. simpl in Hch.
    apply andb_prop in Hch as [Ha _].
    apply digit_or_radix_facts in Ha as (? & ? & ? & _).
    exists a, (m ++ ex). auto.
  - eexists _, _. split; [reflexivity|]. now apply xdigit_zero_facts.
  - assert (exists c r, w = c :: r /\ tolower c = "i"%char)
      as (c & r & -> & Hc)
        by (destruct Hw as [Hw|Hw]; now apply map_tolower_head in Hw).
    apply (or_introl (B := tolower c = "n"%char)) in Hc.
    apply letter_facts in Hc as (? & ? & ? & _).
    exists c, r. auto.
  - destruct (map_tolower_head _ _ _ Hw) as (c & r & -> & Hc).
    apply (or_intror (A := tolower c = "i"%char)) in Hc.
    apply letter_facts in Hc as (? & ? & ? & _).
    exists c, r. auto.
  - destruct (map_tolower_head _ _ _ Hw) as (c & r & -> & Hc).
    apply (or_intror (A := tolower c = "i"%char)) in Hc.
    apply letter_facts in Hc as (? & ? & ? & _).
    eexists c, _. rewrite <- app_comm_cons. auto.
Qed.

(** [strtod] consumes a literal in full, and finds its magnitude. *)
Lemma strtod_complete (t : cstring) (v : number) :
  float_literal t v -> strtod t = Some (length t, v).
Proof.
  intros (sg & u & -> & Hsg & Hu).
  destruct (unsigned_literal_head _ _ Hu) as (c & r & Eu & Hc & Hp & Hm).
  assert (span isspace (sg ++ u) = 0) as Hw.
  { destruct Hsg; subst u; simpl; try reflexivity. now rewrite Hc. }
  unfold strtod. rewrite Hw. cbn [skipn].
  rewrite parse_sign_complete; [|exact Hsg | subst u; simpl; auto].
  cbn [fst]. rewrite skipn_app_length, (parse_number_complete _ _ Hu).
  now rewrite length_app.
Qed.

(** On a text that does not begin with white space, [strtod] consumes
    everything exactly when the text is a literal. *)
Lemma strtod_whole (t : cstring) (v : number) :
  stops isspace t ->
  strtod t = Some (length t, v) <-> float_literal t v.
Proof.
  intros Ht. split; [|apply strtod_complete].
  intros H. apply strtod_sound in H as (w & lit & _ & Lw & Hlit & Et & Ln).
  assert (span isspace t = 0) as Hs
      by (destruct t as [|c t]; simpl in *; [reflexivity | now rewrite Ht]).
  rewrite Hs in Lw. destruct w; [|discriminate]. simpl in *.
  rewrite skipn_all, app_nil_r in Et. now subst t.
Qed.

Lemma float_literal_unique (t : cstring) (v1 v2 : number) :
  float_literal t v1 -> float_literal t v2 -> v1 = v2.
Proof.
  intros H1 H2. apply strtod_complete in H1, H2. congruence.
Qed.

Lemma float_literal_nonempty (t : cstring) (v : number) :
  float_literal t v -> t <> [].
Proof.
  intros (sg & u & -> & _ & Hu).
  destruct (unsigned_literal_head _ _ Hu) as (c & r & -> & _).
  now destruct sg.
Qed.

Lemma decimal_is_float (t : cstring) :
  decimal_literal t -> exists m e, float_literal t (Finite 10 m e).
Proof.
  intros (sg & m & ip & fp & ex & e & -> & Hsg & Hm & Hex).
  eexists _, _. exists sg, (m ++ ex). repeat split; [exact Hsg|].
  eapply literal_decimal; eassumption.
Qed.

Lemma decimal_has_digit (t : cstring) :
  decimal_literal t -> existsb isdigit t = true.
Proof.
  assert (forall s, s <> [] -> all isdigit s -> existsb isdigit s = true) as D.
  { intros [|c s] Hne Hs; [contradiction|]. unfold all in Hs. simpl in *.
    now apply andb_prop in Hs as [-> _]. }
  intros (sg & m & ip & fp & ex & e & -> & _ & Hm & _).
  rewrite !existsb_app.
  destruct Hm as [ip Hne Hip | ip fp Hne Hip Hfp].
  - rewrite (D _ Hne Hip). now rewrite orb_true_r.
  - rewrite existsb_app. simpl.
    destruct ip as [|c ip].
    + simpl in Hne. rewrite (D _ Hne Hfp). now rewrite !orb_true_r.
    + rewrite (D (c :: ip)) by (auto; discriminate).
      now rewrite orb_true_r.
Qed.

(** [std::stod] returns with [idx] at the end of a trimmed text exactly
    when the text is a literal without range error. *)
Lemma stod_whole (t : cstring) :
  stops isspace t ->
  stod t = inr (length t) <->
  exists v, float_literal t v /\ erange v = false.
Proof.
  intros Ht. unfold stod. split.
  - destruct (strtod t) as [[n v]|] eqn:Hs; [|discriminate].
    destruct (erange v) eqn:He; [discriminate|].
    intros [= ->]. exists v. split; [|exact He].
    now apply strtod_whole.
  - intros (v & Hv & He). apply strtod_complete in Hv.
    now rewrite Hv, He.
Qed.

Lemma trim_ascii_stops (line : cstring) : stops isspace (trim_ascii line).
Proof.
  rewrite trim_ascii_strip.
  destruct (strip line) as [|c t] eqn:E; simpl; [exact I|].
  exact (strip_head _ _ _ E).
Qed.

End StrtodFacts.

(** * The claims *)

Section Claims.

Import CType StdString Strtod Literal.

Lemma loop_entry_view (env : Win32) :
  fst (loop_entry env) = [] /\
  view (snd (loop_entry env)) = ([], 1, [], []).
Proof.
  unfold loop_entry, view; simpl. split; [reflexivity|].
  destruct (negb _); simpl; reflexivity.
Qed.

Lemma loop_entry_state (env : Win32) :
  lastValueWritten (snd (loop_entry env)) = [] /\
  reg_calls (snd (loop_entry env)) = 1 /\
  value_writes (trace (snd (loop_entry env))) = [] /\
  lines (snd (loop_entry env)) = [].
Proof.
  unfold loop_entry; simpl. repeat split.
  destruct (negb _); reflexivity.
Qed.

(** What the whole loop has seen, kept and written after any reads. *)
Lemma run_from_entry (env : Win32) (reads : list read_result) :
  let final := run_loop env reads (loop_entry env) in
  let split := split_newline (received reads) in
  fst final = snd split /\
  lines (snd final) = map terminated (fst split) /\
  value_writes (trace (snd final)) =
  write_attempts env 1 (changes [] (readings (map terminated (fst split)))).
Proof.
  destruct (loop_entry_view env) as [Hb Hv].
  destruct (loop_entry env) as [buf st] eqn:E. simpl in Hb. subst buf.
  simpl in Hv. unfold view in Hv. injection Hv as Hlast Hcalls Hw Hl.
  pose proof (run_loop_from_empty env reads st) as H. cbv zeta in *.
  rewrite Hlast, Hcalls, Hw, Hl in H. exact H.
Qed.

(** C1: after any sequence of reads, the lines the inner loop has
    extracted are, in content and order, the newline-terminated segments
    of the concatenation of the chunks received, and the unterminated rest
    of that concatenation is what the buffer holds (so a segment is
    extracted only once its newline has arrived); a line that arrives as
    "12" and then ".5\n" is extracted as the one line "12.5\n" and gives
    the single Reading "12.5", written once. *)
Theorem lines_are_the_split_of_the_received_bytes (env : Win32) :
  (forall reads,
      let final := run_loop env reads (loop_entry env) in
      let split := split_newline (received reads) in
      lines (snd final) = map terminated (fst split) /\
      fst final = snd split) /\
  (let final := run_loop env [ReadOk (str "12"); ReadOk (str ".5" ++ [LF])]
                         (loop_entry env) in
   let half := run_loop env [ReadOk (str "12")] (loop_entry env) in
   lines (snd half) = [] /\ fst half = str "12" /\
   lines (snd final) = [str "12.5" ++ [LF]] /\
   fst final = [] /\
   readings (lines (snd final)) = [str "12.5"] /\
   value_writes (trace (snd final)) =
   [(utf8_to_wstring env (str "12.5"), RegSetValueExW_res env 1)]).
Proof.
  split.
  - intros reads. destruct (run_from_entry env reads) as (Hb & Hl & _).
    cbv zeta. auto.
  - cbv zeta.
    destruct (run_from_entry env [ReadOk (str "12")]) as (Hb1 & Hl1 & _).
    destruct (run_from_entry env [ReadOk (str "12"); ReadOk (str ".5" ++ [LF])])
      as (Hb2 & Hl2 & Hw2).
    cbv zeta in *. rewrite Hb1, Hl1, Hb2, Hl2, Hw2.
    assert (readings [str "12.5" ++ [LF]] = [str "12.5"]) as R
        by (vm_compute; reflexivity).
    repeat split; try reflexivity; exact R.
Qed.

(** C8: whenever the outer loop is about to read again, that is after any
    number of reads, and after the inner loop has run on any buffer
    contents, the buffer holds no newline byte. *)
Theorem buffer_never_keeps_a_newline (env : Win32) :
  (forall reads, ~ In LF (fst (run_loop env reads (loop_entry env)))) /\
  (forall buf st, ~ In LF (fst (drain env buf st))) /\
  (forall buf st, find (fst (drain env buf st)) LF = None).
Proof.
  assert (forall buf st, ~ In LF (fst (drain env buf st))) as D.
  { intros buf st. destruct (drain_spec env buf st) as (_ & _ & _ & C & _).
    exact C. }
  repeat split.
  - intros reads.
    destruct (loop_entry_view env) as [Hb _].
    destruct (loop_entry env) as [buf st]. simpl in Hb. subst buf.
    destruct (run_loop_spec env reads [] st (fun x => x)) as (_ & _ & _ & C & _).
    exact C.
  - exact D.
  - intros buf st. apply find_none, D.
Qed.

Lemma admit_reading_writes (env : Win32) (t : cstring) (st : state) :
  value_writes (trace (admit_reading env t st)) =
  value_writes (trace st)
    ++ (if StdString.eqb t (lastValueWritten st) then []
        else [(utf8_to_wstring env t, RegSetValueExW_res env (reg_calls st))]).
Proof.
  pose proof (admit_reading_view env t st) as V.
  destruct (StdString.eqb t (lastValueWritten st)); unfold view in V;
    injection V as _ _ -> _; [now rewrite app_nil_r | reflexivity].
Qed.

(** On a 7-bit text the conversion is the byte-by-byte widening. *)
Lemma utf8_to_wstring_ascii (env : Win32) (t : cstring) :
  decodes_ascii env -> is_ascii7 t = true ->
  utf8_to_wstring env t = widen t.
Proof.
  intros Hd Ht. unfold utf8_to_wstring.
  destruct t as [|c t]; [reflexivity|]. simpl empty. cbv iota.
  rewrite Hd by (auto; discriminate). reflexivity.
Qed.

(** C2: the gate attempts a write exactly when the text of the reading
    differs from the remembered one; over any run the writes are the
    readings that differ from their predecessor, in order; the same valid
    line twice in a row is written once; and the lines "10", "10", "20",
    "10" give three writes, of "10", "20" and "10". *)
Theorem writes_are_the_changes (env : Win32) :
  (forall t st,
      value_writes (trace (admit_reading env t st)) =
      value_writes (trace st)
        ++ (if StdString.eqb t (lastValueWritten st) then []
            else [(utf8_to_wstring env t,
                   RegSetValueExW_res env (reg_calls st))])) /\
  (forall reads,
      value_writes (trace (snd (run_loop env reads (loop_entry env)))) =
      write_attempts env 1
        (changes [] (readings (map terminated
                                   (fst (split_newline (received reads))))))) /\
  (forall line t,
      validate line = Reading t ->
      value_writes
        (trace (process_lines env [line; line] (snd (loop_entry env))))
      = [(utf8_to_wstring env t, RegSetValueExW_res env 1)]) /\
  (let final :=
     run_loop env (map ReadOk [str "10" ++ [LF]; str "10" ++ [LF];
                               str "20" ++ [LF]; str "10" ++ [LF]])
              (loop_entry env) in
   value_writes (trace (snd final)) =
   [(utf8_to_wstring env (str "10"), RegSetValueExW_res env 1);
    (utf8_to_wstring env (str "20"), RegSetValueExW_res env 2);
    (utf8_to_wstring env (str "10"), RegSetValueExW_res env 3)] /\
   (decodes_ascii env ->
    map fst (value_writes (trace (snd final))) =
    [widen (str "10"); widen (str "20"); widen (str "10")])).
Proof.
  split; [apply admit_reading_writes|].
  split; [intros reads; apply (run_from_entry env reads)|].
  split.
  - intros line t Hv.
    destruct (process_lines_view env [line; line] (snd (loop_entry env)))
      as [_ Hw].
    destruct (loop_entry_state env) as (Hlast & Hcalls & Hw0 & _).
    rewrite Hw, Hlast, Hcalls, Hw0. unfold readings. simpl. rewrite Hv.
    simpl.
    apply validate_reading in Hv as (_ & Hne & _).
    destruct (cstring_eqb_spec t []) as [E|_]; [contradiction|].
    destruct (cstring_eqb_spec t t) as [_|E]; [reflexivity | contradiction].
  - cbv zeta.
    match goal with
    | |- context [run_loop env ?r _] =>
        destruct (run_from_entry env r) as (_ & _ & Hw)
    end.
    cbv zeta in Hw. rewrite Hw. clear Hw.
    assert (readings
              (map terminated
                 (fst (split_newline
                         (received
                            (map ReadOk [str "10" ++ [LF]; str "10" ++ [LF];
                                         str "20" ++ [LF]; str "10" ++ [LF]])))))
            = [str "10"; str "10"; str "20"; str "10"]) as ->
        by (vm_compute; reflexivity).
    change (changes [] [str "10"; str "10"; str "20"; str "10"])
      with [str "10"; str "20"; str "10"].
    cbn [write_attempts map fst].
    split; [reflexivity|].
    intros Hd.
    rewrite !utf8_to_wstring_ascii by (auto; reflexivity). reflexivity.
Qed.

Lemma writes_are_the_changes_witness :
  value_writes
    (trace (process_lines quiet_env [str "10" ++ [LF]; str "10" ++ [LF]]
                          (snd (loop_entry quiet_env))))
  = [(utf8_to_wstring quiet_env (str "10"), RegSetValueExW_res quiet_env 1)]
  /\ map fst (value_writes
                (trace (snd (run_loop quiet_env
                               (map ReadOk [str "10" ++ [LF]; str "10" ++ [LF];
                                            str "20" ++ [LF]; str "10" ++ [LF]])
                               (loop_entry quiet_env)))))
     = [widen (str "10"); widen (str "20"); widen (str "10")].
Proof.
  split.
  - apply (proj1 (proj2 (proj2 (writes_are_the_changes quiet_env)))).
    vm_compute. reflexivity.
  - apply (proj2 (proj2 (proj2 (proj2 (writes_are_the_changes quiet_env))))).
    intros s _ _. reflexivity.
Defined.

(** C5: when the text of a forwarded reading differs from
    [lastValueWritten], it is remembered whatever [RegSetValueExW]
    returns; so the same reading again, right after, attempts no write
    (also after a failed one), and the original value coming back after a
    distinct one is attempted afresh. *)
Theorem last_value_advances_whatever_the_write_returns
        (env : Win32) (t : cstring) (st : state) :
  t <> lastValueWritten st ->
  let wres := RegSetValueExW_res env (reg_calls st) in
  let st1 := admit_reading env t st in
  lastValueWritten st1 = t /\
  trace st1 =
  trace st ++ [RegSetValue "Value" (utf8_to_wstring env t) wres;
               Print (if (wres =? ERROR_SUCCESS)%Z
                      then MsgWroteValue (utf8_to_wstring env t)
                      else ErrWriteValue wres)] /\
  admit_reading env t st1 = st1 /\
  (forall u, u <> t ->
     value_writes (trace (admit_reading env t (admit_reading env u st1))) =
     value_writes (trace st)
       ++ [(utf8_to_wstring env t, wres);
           (utf8_to_wstring env u, RegSetValueExW_res env (S (reg_calls st)));
           (utf8_to_wstring env t,
            RegSetValueExW_res env (S (S (reg_calls st))))]).
Proof.
  intros Hne. cbv zeta.
  assert (lastValueWritten (admit_reading env t st) = t
          /\ reg_calls (admit_reading env t st) = S (reg_calls st)) as [L C].
  { pose proof (admit_reading_view env t st) as V.
    destruct (cstring_eqb_spec t (lastValueWritten st)) as [E|_];
      [contradiction|].
    unfold view in V. injection V as -> -> _ _. auto. }
  repeat split.
  - exact L.
  - unfold admit_reading.
    destruct (cstring_eqb_spec t (lastValueWritten st)) as [E|_];
      [contradiction|]. simpl.
    destruct (RegSetValueExW_res env (reg_calls st) =? ERROR_SUCCESS)%Z;
      simpl; now rewrite <- app_assoc.
  - unfold admit_reading at 1. rewrite L.
    destruct (cstring_eqb_spec t t) as [_|E]; [reflexivity | contradiction].
  - intros u Hu.
    rewrite !admit_reading_writes.
    assert (lastValueWritten (admit_reading env u (admit_reading env t st)) = u
            /\ reg_calls (admit_reading env u (admit_reading env t st))
               = S (S (reg_calls st))) as [L2 C2].
    { pose proof (admit_reading_view env u (admit_reading env t st)) as V.
      rewrite L, C in V.
      destruct (cstring_eqb_spec u t) as [E|_]; [contradiction|].
      unfold view in V. injection V as -> -> _ _. auto. }
    rewrite L2, C2, L, C.
    destruct (cstring_eqb_spec t u) as [E|_]; [congruence|].
    destruct (cstring_eqb_spec u t) as [E|_]; [congruence|].
    destruct (cstring_eqb_spec t (lastValueWritten st)) as [E|_];
      [contradiction|].
    now rewrite <- !app_assoc.
Qed.

Lemma last_value_advances_witness :
  let st := snd (loop_entry denying_env) in
  let st1 := admit_reading denying_env (str "10") st in
  lastValueWritten st1 = str "10" /\
  trace st1 =
  trace st ++ [RegSetValue "Value" (widen (str "10")) ERROR_ACCESS_DENIED;
               Print (ErrWriteValue ERROR_ACCESS_DENIED)] /\
  admit_reading denying_env (str "10") st1 = st1.
Proof.
  cbv zeta.
  destruct (last_value_advances_whatever_the_write_returns
              denying_env (str "10") (snd (loop_entry denying_env)))
    as (H1 & H2 & H3 & _).
  - simpl. discriminate.
  - cbv zeta in *. split; [exact H1 | split; [exact H2 | exact H3]].
Defined.

(** C6: [lastValueWritten] is empty when the loop is entered; the text of
    a Reading is never empty; so the first Reading is always forwarded: it
    is the first value written, by call number 1 of [RegSetValueExW]
    (call number 0 wrote the name). *)
Theorem first_reading_is_always_forwarded (env : Win32) :
  lastValueWritten (snd (loop_entry env)) = [] /\
  (forall line t, validate line = Reading t -> t <> []) /\
  (forall line t,
      validate line = Reading t ->
      value_writes (trace (process_line env line (snd (loop_entry env))))
      = [(utf8_to_wstring env t, RegSetValueExW_res env 1)]) /\
  (forall reads t ts,
      readings (map terminated (fst (split_newline (received reads))))
      = t :: ts ->
      exists ws,
        value_writes (trace (snd (run_loop env reads (loop_entry env))))
        = (utf8_to_wstring env t, RegSetValueExW_res env 1) :: ws).
Proof.
  destruct (loop_entry_state env) as (Hlast & Hcalls & Hw0 & _).
  assert (forall line t, validate line = Reading t -> t <> []) as Hne
      by (intros line t Hv; now apply validate_reading in Hv).
  split; [exact Hlast|]. split; [exact Hne|]. split.
  - intros line t Hv.
    destruct (process_lines_view env [line] (snd (loop_entry env))) as [_ Hw].
    unfold process_lines in Hw. cbn [fold_left] in Hw.
    rewrite Hw, Hlast, Hcalls, Hw0. unfold readings. cbn [flat_map].
    rewrite Hv. cbn [app changes].
    destruct (cstring_eqb_spec t []) as [E|_]; [|reflexivity].
    now apply Hne in Hv.
  - intros reads t ts Hr.
    destruct (run_from_entry env reads) as (_ & _ & Hw). cbv zeta in Hw.
    rewrite Hw, Hr. simpl.
    assert (In t (readings (map terminated
                                (fst (split_newline (received reads))))))
      as Hin by (rewrite Hr; now left).
    unfold readings in Hin. apply in_flat_map in Hin as (line & _ & Hin).
    destruct (validate line) as [| |t'] eqn:Hv; simpl in Hin; try tauto.
    destruct Hin as [<-|[]]. apply Hne in Hv.
    destruct (cstring_eqb_spec t' []) as [E|_]; [contradiction|].
    eexists. reflexivity.
Qed.

Lemma first_reading_is_always_forwarded_witness :
  value_writes
    (trace (process_line quiet_env (str "42" ++ [LF])
                         (snd (loop_entry quiet_env))))
  = [(widen (str "42"), ERROR_SUCCESS)].
Proof.
  apply (proj1 (proj2 (proj2 (first_reading_is_always_forwarded quiet_env)))
               (str "42" ++ [LF]) (str "42")).
  vm_compute. reflexivity.
Defined.

(** C7: a line that is white space only (its terminator included), that
    is, a line that is empty after trimming, gives no Reading and no
    output at all: the loop body leaves the output, [lastValueWritten] and
    the registry untouched. *)
Theorem blank_line_is_skipped_silently
        (env : Win32) (line : cstring) (st : state) :
  blank line = true \/ trim_ascii line = [] ->
  blank line = true /\ trim_ascii line = [] /\
  validate line = Skipped /\
  trace (process_line env line st) = trace st /\
  lastValueWritten (process_line env line st) = lastValueWritten st /\
  reg_calls (process_line env line st) = reg_calls st.
Proof.
  intros H.
  assert (blank line = true) as B.
  { destruct H as [H|H]; [exact H|].
    rewrite trim_ascii_strip in H. now apply strip_blank. }
  assert (trim_ascii line = []) as T
      by (rewrite trim_ascii_strip; now apply strip_blank).
  assert (validate line = Skipped) as V by now apply validate_skipped.
  unfold process_line. rewrite V. simpl.
  split; [exact B|]. split; [exact T|]. repeat split.
Qed.

Lemma blank_line_is_skipped_silently_witness :
  let line := [" "%char; "009"%char; CR; LF] in
  validate line = Skipped /\
  trace (process_line quiet_env line (snd (loop_entry quiet_env)))
  = trace (snd (loop_entry quiet_env)).
Proof.
  cbv zeta.
  destruct (blank_line_is_skipped_silently
              quiet_env [" "%char; "009"%char; CR; LF]
              (snd (loop_entry quiet_env)))
    as (_ & _ & V & T & _).
  - left. reflexivity.
  - split; [exact V | exact T].
Defined.

(** A line that is not blank and not a number is reported and dropped. *)
Lemma rejected_line_is_reported
      (env : Win32) (line t : cstring) (st : state) :
  validate line = Rejected t ->
  trace (process_line env line st) = trace st ++ [Print (MsgIgnored t)].
Proof. intros V. unfold process_line. now rewrite V. Qed.

(** C4: when [std::stod] stops before the end of the trimmed text, the
    line is rejected; the text of a Reading is the trimmed line itself;
    "12.5 extra" is rejected, "  42  " gives the Reading "42" and "-3.14"
    the Reading "-3.14" (each taken bare and with its newline). *)
Theorem leftover_after_the_number_rejects_the_line :
  (forall line idx,
      stod (trim_ascii line) = inr idx ->
      idx < length (trim_ascii line) ->
      validate line = Rejected (trim_ascii line)) /\
  (forall line t, validate line = Reading t -> t = trim_ascii line) /\
  validate (str "12.5 extra") = Rejected (str "12.5 extra") /\
  validate (str "12.5 extra" ++ [LF]) = Rejected (str "12.5 extra") /\
  validate (str "  42  ") = Reading (str "42") /\
  validate (str "  42  " ++ [LF]) = Reading (str "42") /\
  validate (str "-3.14") = Reading (str "-3.14") /\
  validate (str "-3.14" ++ [LF]) = Reading (str "-3.14").
Proof.
  split; [|split; [|vm_compute; repeat split]].
  - intros line idx Hs Hlt. apply validate_rejected.
    repeat split.
    + intros E. rewrite E in Hlt. simpl in Hlt. lia.
    + rewrite Hs. intros [= E]. lia.
  - intros line t Hv. now apply validate_reading in Hv.
Qed.

Lemma leftover_after_the_number_witness :
  validate (str "5 6" ++ [LF]) = Rejected (str "5 6").
Proof.
  apply (proj1 leftover_after_the_number_rejects_the_line
               (str "5 6" ++ [LF]) 1).
  - vm_compute. reflexivity.
  - vm_compute. lia.
Defined.

(** C10: a line ended by carriage return and newline is validated exactly
    as the same body ended by a bare newline: same outcome, and the same
    text when it is a Reading. *)
Theorem crlf_validates_as_lf (body : cstring) :
  trim_ascii (body ++ [CR; LF]) = trim_ascii (body ++ [LF]) /\
  validate (body ++ [CR; LF]) = validate (body ++ [LF]).
Proof.
  assert (trim_ascii (body ++ [CR; LF]) = trim_ascii (body ++ [LF])) as T.
  { rewrite !trim_ascii_strip, !strip_app_blank; reflexivity. }
  split; [exact T|]. unfold validate. now rewrite T.
Qed.

(** The startup failures [wmain] looks for end it with status 1 before
    any read; without them it reads until [g_running] is cleared and
    returns 0. *)
Lemma wmain_exit_status (env : Win32) :
  (startup_failure_detected env ->
   fst (wmain env) = 1%Z /\ read_calls (snd (wmain env)) = 0) /\
  (~ startup_failure_detected env -> fst (wmain env) = 0%Z).
Proof.
  unfold startup_failure_detected, wmain.
  destruct (CreateFileW_ok env); simpl; [|split; [auto | tauto]].
  destruct (GetCommState_ok env); simpl; [|split; [auto | tauto]].
  destruct (SetCommState_ok env); simpl; [|split; [auto | tauto]].
  destruct (Z.eqb_spec (RegCreateKeyExW_res env) ERROR_SUCCESS) as [E|E];
    simpl.
  - destruct (run_loop env (ReadFile_res env) (loop_entry env)).
    split; [|reflexivity]. intros [H|[H|[H|H]]]; congruence.
  - split; [auto | tauto].
Qed.

(** C9, at the failing input: [SetCommTimeouts] fails, so the transport
    cannot be configured with its timeouts, but [wmain] does not look at
    the result: it is not among the failures [wmain] detects, the read
    loop runs (one call of [ReadFile], one value written), and the exit
    status is 0 rather than non-zero. *)
Theorem timeouts_failure_is_not_fatal :
  SetCommTimeouts_ok no_timeouts_env = false /\
  ~ startup_failure_detected no_timeouts_env /\
  fst (wmain no_timeouts_env) = 0%Z /\
  read_calls (snd (wmain no_timeouts_env)) = 1 /\
  value_writes (snd (wmain no_timeouts_env))
  = [(widen (str "21.5"), ERROR_SUCCESS)].
Proof.
  split; [reflexivity|]. split.
  - unfold startup_failure_detected; simpl.
    intros [H|[H|[H|H]]]; try discriminate. now apply H.
  - vm_compute. repeat split.
Qed.

(** C3, as the code has it: a line gives a Reading exactly when its
    trimmed text is, in whole, a literal [std::stod] converts without a
    range error: an optional sign and then a decimal floating number, a
    hexadecimal floating number, an infinity or a NaN, the magnitude of a
    number being neither rounded to an infinity nor, when it is not zero,
    rounded to zero.  Every other trimmed text that is not empty is
    rejected.  In particular a decimal literal gives a Reading exactly
    when its value is in range. *)
Theorem reading_iff_stod_converts_the_whole_text (line t : cstring) :
  (validate line = Reading t <->
   t = trim_ascii line /\
   exists v, float_literal t v /\ erange v = false) /\
  (validate line = Rejected t <->
   t = trim_ascii line /\ t <> [] /\
   ~ exists v, float_literal t v /\ erange v = false) /\
  (t = trim_ascii line -> decimal_literal t ->
   exists m e,
     float_literal t (Finite 10 m e) /\
     (validate line = Reading t <-> erange (Finite 10 m e) = false)).
Proof.
  assert (t = trim_ascii line ->
          (stod t = inr (length t) <->
           exists v, float_literal t v /\ erange v = false)) as W.
  { intros ->. apply stod_whole, trim_ascii_stops. }
  assert (validate line = Reading t <->
          t = trim_ascii line /\
          exists v, float_literal t v /\ erange v = false) as R.
  { rewrite validate_reading. split.
    - intros (E & _ & H). split; [exact E|]. now apply W.
    - intros (E & v & Hv & He). repeat split; [exact E| |].
      + exact (float_literal_nonempty _ _ Hv).
      + apply W; [exact E|]. now exists v. }
  split; [exact R|]. split.
  - rewrite validate_rejected. split.
    + intros (E & Hne & H). repeat split; auto.
      intros Hv. apply H. now apply W.
    + intros (E & Hne & H). repeat split; auto.
      intros Hs. apply H. now apply W.
  - intros E Hd. destruct (decimal_is_float _ Hd) as (m & e & Hf).
    exists m, e. split; [exact Hf|]. rewrite R. split.
    + intros (_ & v & Hv & He).
      now rewrite (float_literal_unique _ _ _ Hf Hv).
    + intros He. split; [exact E|]. now exists (Finite 10 m e).
Qed.

Lemma decimal_literal_1e999 : decimal_literal (str "1e999").
Proof.
  exists [], (str "1"), (str "1"), [], (str "e999"), 999%Z.
  repeat split.
  - constructor.
  - constructor; [discriminate | reflexivity].
  - apply (exponent_some "e"%char "e"%char [] (str "999"));
      [reflexivity | constructor | discriminate | reflexivity].
Qed.

Lemma reading_iff_stod_converts_witness :
  exists m e,
    float_literal (str "1e999") (Finite 10 m e) /\
    (validate (str "1e999" ++ [LF]) = Reading (str "1e999") <->
     erange (Finite 10 m e) = false).
Proof.
  apply (proj2 (proj2 (reading_iff_stod_converts_the_whole_text
                         (str "1e999" ++ [LF]) (str "1e999")))).
  - vm_compute. reflexivity.
  - exact decimal_literal_1e999.
Defined.

(** C3 as stated fails in both directions: "inf" gives a Reading and is
    not a decimal literal (so do "nan" and the hexadecimal "0x1A"), and
    the decimal literal "1e999" is rejected, its value being out of the
    range of [double]. *)
Lemma reading_iff_decimal_literal_counterexample :
  (validate (str "inf" ++ [LF]) = Reading (str "inf") /\
   trim_ascii (str "inf" ++ [LF]) = str "inf" /\
   ~ decimal_literal (str "inf")) /\
  (validate (str "nan" ++ [LF]) = Reading (str "nan") /\
   ~ decimal_literal (str "nan")) /\
  (validate (str "0x1A" ++ [LF]) = Reading (str "0x1A") /\
   ~ decimal_literal (str "0x1A")) /\
  (validate (str "1e999" ++ [LF]) = Rejected (str "1e999") /\
   trim_ascii (str "1e999" ++ [LF]) = str "1e999" /\
   decimal_literal (str "1e999")).
Proof.
  assert (forall t, existsb isdigit t = false -> ~ decimal_literal t) as N.
  { intros t H Hd. apply decimal_has_digit in Hd. congruence. }
  split; [|split; [|split]].
  - split; [vm_compute; reflexivity|]. split; [reflexivity|].
    apply N. reflexivity.
  - split; [vm_compute; reflexivity|]. apply N. reflexivity.
  - split; [vm_compute; reflexivity|].
    intros Hd. apply decimal_is_float in Hd as (m & e & Hf).
    apply strtod_complete in Hf. vm_compute in Hf. discriminate Hf.
  - split; [vm_compute; reflexivity|]. split; [reflexivity|].
    exact decimal_literal_1e999.
Qed.

End Claims.


(** * Further properties of the program *)

(** ** [trim_ascii] *)

Section TrimProperties.

Import CType StdString Strtod Literal.

Lemma drop_spaces_fixed (t : cstring) :
  stops isspace t -> drop_spaces t = t.
Proof. destruct t as [|c t]; simpl; [reflexivity|]. now intros ->. Qed.

Lemma drop_spaces_stops (s : cstring) : stops isspace (drop_spaces s).
Proof.
  destruct (drop_spaces s) as [|c t] eqn:E; simpl; [exact I|].
  exact (drop_spaces_head _ _ _ E).
Qed.

Lemma strip_stops (s : cstring) :
  stops isspace (strip s) /\ stops isspace (rev (strip s)).
Proof.
  split.
  - destruct (strip s) as [|c t] eqn:E; simpl; [exact I|].
    exact (strip_head _ _ _ E).
  - unfold strip. rewrite rev_involutive. apply drop_spaces_stops.
Qed.

(** A text with no white space at either end is left as it is. *)
Lemma strip_fixed (t : cstring) :
  stops isspace t -> stops isspace (rev t) -> strip t = t.
Proof.
  intros H1 H2. unfold strip.
  rewrite (drop_spaces_fixed _ H1), (drop_spaces_fixed _ H2).
  apply rev_involutive.
Qed.

Lemma strip_split (s : cstring) :
  exists pre post,
    s = pre ++ strip s ++ post /\ blank pre = true /\ blank post = true.
Proof.
  destruct (drop_spaces_split s) as (pre & Es & Bpre & _).
  destruct (drop_spaces_split (rev (drop_spaces s))) as (sp & Er & Bsp & _).
  exists pre, (rev sp). repeat split.
  - rewrite Es at 1. f_equal. unfold strip.
    rewrite <- rev_app_distr, <- Er. symmetry. apply rev_involutive.
  - exact Bpre.
  - now rewrite blank_rev.
Qed.

(** X1: [trim_ascii] returns a contiguous part of its argument, and what
    it leaves out before and after that part is white space only. *)
Theorem trim_ascii_removes_only_outer_white_space (s : cstring) :
  exists pre post,
    s = pre ++ trim_ascii s ++ post /\ blank pre = true /\ blank post = true.
Proof. rewrite trim_ascii_strip. apply strip_split. Qed.

(** X2: the result of [trim_ascii] is empty exactly when the argument is
    white space only (or empty); otherwise its first and its last character
    are not white space. *)
Theorem trim_ascii_leaves_no_outer_white_space (s : cstring) :
  match trim_ascii s with
  | [] => blank s = true
  | c :: _ =>
      blank s = false /\ isspace c = false /\
      isspace (last (trim_ascii s) c) = false
  end.
Proof.
  rewrite trim_ascii_strip.
  destruct (strip s) as [|c t] eqn:E; [now apply strip_blank|].
  split; [|split].
  - destruct (blank s) eqn:B; [|reflexivity].
    apply strip_blank in B. congruence.
  - exact (strip_head _ _ _ E).
  - assert (c :: t <> []) as Hne by discriminate.
    destruct (exists_last Hne) as (u & x & Eu). rewrite Eu, last_last.
    rewrite Eu in E. exact (strip_last _ _ _ E).
Qed.

Lemma trim_ascii_fixed (s : cstring) : trim_ascii (trim_ascii s) = trim_ascii s.
Proof.
  rewrite !trim_ascii_strip.
  destruct (strip_stops s) as [H1 H2]. now apply strip_fixed.
Qed.

(** X3: trimming twice is trimming once. *)
Theorem trim_ascii_idempotent (s : cstring) :
  trim_ascii (trim_ascii s) = trim_ascii s.
Proof. apply trim_ascii_fixed. Qed.

Lemma trim_ascii_terminated (t sp : cstring) :
  blank sp = true -> trim_ascii (t ++ sp) = trim_ascii t.
Proof. intros B. rewrite !trim_ascii_strip. now apply strip_app_blank. Qed.

(** X4: the text of a Reading is canonical: validated on its own, with a
    newline, or with carriage return and newline, it gives the same Reading
    again. *)
Theorem reading_text_validates_to_itself (line t : cstring) :
  validate line = Reading t ->
  validate t = Reading t /\
  validate (t ++ [LF]) = Reading t /\
  validate (t ++ [CR; LF]) = Reading t.
Proof.
  intros H. apply validate_reading in H as (E & Hne & Hs).
  assert (trim_ascii t = t) as Et by (subst t; apply trim_ascii_fixed).
  repeat split; apply validate_reading; repeat split; auto;
    rewrite ?trim_ascii_terminated by reflexivity; now rewrite Et.
Qed.

Lemma reading_text_validates_to_itself_witness :
  validate (str "42") = Reading (str "42") /\
  validate (str "42" ++ [LF]) = Reading (str "42") /\
  validate (str "42" ++ [CR; LF]) = Reading (str "42").
Proof.
  apply (reading_text_validates_to_itself (str "  42  " ++ [LF]) (str "42")).
  vm_compute. reflexivity.
Defined.

End TrimProperties.

(** ** The line assembler, further *)

Section AssemblerProperties.

Import StdString.

Variable env : Win32.

(** The lines seen after any reads are terminated segments free of inner
    newlines, and with the buffer they make up what was received. *)
Lemma run_from_entry_segments (reads : list read_result) :
  let final := run_loop env reads (loop_entry env) in
  exists segs,
    Forall clean segs /\ clean (fst final) /\
    received reads = concat (map terminated segs) ++ fst final /\
    lines (snd final) = map terminated segs.
Proof.
  cbv zeta.
  destruct (loop_entry_view env) as [Hb _].
  destruct (loop_entry_state env) as (_ & _ & _ & Hl).
  destruct (loop_entry env) as [buf st]. cbn [fst snd] in *. subst buf.
  destruct (run_loop_spec env reads [] st (fun x => x))
    as (segs & Hsegs & E & C & V).
  exists segs. split; [exact Hsegs|]. split; [exact C|]. split; [exact E|].
  destruct (process_lines_view env (map terminated segs) st) as [Hpl _].
  unfold view in V. injection V as _ _ _ Vl.
  rewrite Hl in Hpl. exact (eq_trans Vl Hpl).
Qed.

Lemma find_terminated (seg : cstring) :
  clean seg -> find (terminated seg) LF = Some (length seg).
Proof.
  unfold clean, terminated. induction seg as [|c seg IH]; simpl; intros H.
  - reflexivity.
  - destruct (Ascii.eqb_spec c LF) as [-> | _]; [tauto|].
    rewrite IH by tauto. reflexivity.
Qed.

(** X5: no byte is lost, duplicated or reordered: after any reads, the
    lines extracted so far, in order, followed by what the buffer holds, are
    exactly the bytes received. *)
Theorem extracted_lines_and_buffer_are_the_received_bytes
        (reads : list read_result) :
  let final := run_loop env reads (loop_entry env) in
  concat (lines (snd final)) ++ fst final = received reads.
Proof.
  cbv zeta.
  destruct (run_from_entry_segments reads) as (segs & _ & _ & E & L).
  cbv zeta in *. now rewrite L, E.
Qed.

(** X6: every line the inner loop extracts ends with the newline byte and
    holds no other one: its first newline is its last byte. *)
Theorem every_extracted_line_ends_at_its_only_newline
        (reads : list read_result) :
  Forall (fun l => l <> [] /\ last l zero = LF /\
                   find l LF = Some (length l - 1))
         (lines (snd (run_loop env reads (loop_entry env)))).
Proof.
  destruct (run_from_entry_segments reads) as (segs & Hsegs & _ & _ & L).
  cbv zeta in L. rewrite L. clear L.
  induction Hsegs as [|seg segs Hseg _ IH]; simpl; constructor; [|exact IH].
  unfold terminated at 1 2. split; [now destruct seg|].
  split; [apply last_last|].
  rewrite (find_terminated _ Hseg). unfold terminated.
  rewrite length_app. simpl. f_equal. lia.
Qed.

(** X7: only the bytes matter, not the way they arrive: two sequences of
    reads that deliver the same bytes (in other chunks, with other failed
    or empty reads in between) leave the same buffer, the same lines and the
    same writes of the value. *)
Theorem chunking_does_not_matter (reads1 reads2 : list read_result) :
  received reads1 = received reads2 ->
  let final1 := run_loop env reads1 (loop_entry env) in
  let final2 := run_loop env reads2 (loop_entry env) in
  fst final1 = fst final2 /\
  lines (snd final1) = lines (snd final2) /\
  lastValueWritten (snd final1) = lastValueWritten (snd final2) /\
  value_writes (trace (snd final1)) = value_writes (trace (snd final2)).
Proof.
  intros E. cbv zeta.
  destruct (run_from_entry env reads1) as (B1 & L1 & W1).
  destruct (run_from_entry env reads2) as (B2 & L2 & W2).
  cbv zeta in *. rewrite B1, B2, L1, L2, W1, W2, E.
  repeat split.
  (* the remembered value is part of the view of the state *)
  destruct (loop_entry_view env) as [Hb _].
  destruct (loop_entry env) as [buf st]. cbn [fst snd] in *. subst buf.
  destruct (run_loop_spec env reads1 [] st (fun x => x))
    as (segs1 & H1 & E1 & C1 & V1).
  destruct (run_loop_spec env reads2 [] st (fun x => x))
    as (segs2 & H2 & E2 & C2 & V2).
  simpl in E1, E2.
  assert (segs1 = segs2) as ->.
  { pose proof (split_newline_unique _ _ H1 C1) as S1.
    pose proof (split_newline_unique _ _ H2 C2) as S2.
    rewrite <- E1 in S1. rewrite <- E2, <- E in S2. congruence. }
  unfold view in V1, V2. injection V1 as V1 _ _ _. injection V2 as V2 _ _ _.
  exact (eq_trans V1 (eq_sym V2)).
Qed.

End AssemblerProperties.

Lemma chunking_does_not_matter_witness :
  let one := [ReadOk (str "12.5" ++ [LF])] in
  let two := [ReadOk (str "12"); ReadFailed 5; ReadOk []; ReadOk (str ".5" ++ [LF])] in
  lines (snd (run_loop quiet_env two (loop_entry quiet_env)))
  = lines (snd (run_loop quiet_env one (loop_entry quiet_env))) /\
  value_writes (trace (snd (run_loop quiet_env two (loop_entry quiet_env))))
  = value_writes (trace (snd (run_loop quiet_env one (loop_entry quiet_env)))).
Proof.
  cbv zeta.
  destruct (chunking_does_not_matter
              quiet_env
              [ReadOk (str "12"); ReadFailed 5; ReadOk []; ReadOk (str ".5" ++ [LF])]
              [ReadOk (str "12.5" ++ [LF])])
    as (_ & L & _ & W).
  - reflexivity.
  - split; [exact L | exact W].
Defined.

(** ** What the loop as a whole does to an observation of the state *)

Section Observation.

Variable env : Win32.
Variable A : Type.
Variable obs : state -> A.

(** The observation does not see the events of the outer loop, and the body
    of the line loop acts on it as a function of what is observed. *)
Hypothesis obs_outer :
  forall e st, is_line_event e = false -> obs (emit e st) = obs st.
Hypothesis obs_line :
  forall l st st',
    obs st = obs st' ->
    obs (process_line env l st) = obs (process_line env l st').

Lemma obs_process_lines (ls : list cstring) (st st' : state) :
  obs st = obs st' ->
  obs (process_lines env ls st) = obs (process_lines env ls st').
Proof.
  revert st st'; induction ls as [|l ls IH]; simpl; intros st st' H;
    [exact H|].
  apply IH. now apply obs_line.
Qed.

Lemma obs_iteration (r : read_result) (buf : cstring) (st : state) :
  clean buf ->
  exists segs,
    Forall clean segs /\
    buf ++ payload r
    = concat (map terminated segs) ++ fst (iteration env r (buf, st)) /\
    clean (fst (iteration env r (buf, st))) /\
    obs (snd (iteration env r (buf, st)))
    = obs (process_lines env (map terminated segs) st).
Proof.
  intros Hbuf. destruct r as [err|data]; simpl.
  - exists []. simpl. rewrite app_nil_r. repeat split; auto.
    rewrite obs_outer by reflexivity.
    destruct (negb _); [rewrite obs_outer by reflexivity|];
      now apply obs_outer.
  - destruct data as [|c data]; simpl.
    + exists []. simpl. rewrite app_nil_r. repeat split; auto.
      rewrite obs_outer by reflexivity. now apply obs_outer.
    + destruct (drain_spec env (buf ++ c :: data) (emit ReadFileCall st))
        as (segs & Hsegs & Hrest & Hc & Hst).
      exists segs. repeat split; auto.
      rewrite Hst. apply obs_process_lines. now apply obs_outer.
Qed.

Lemma obs_run_loop (reads : list read_result) (buf : cstring) (st : state) :
  clean buf ->
  exists segs,
    Forall clean segs /\
    buf ++ received reads
    = concat (map terminated segs) ++ fst (run_loop env reads (buf, st)) /\
    clean (fst (run_loop env reads (buf, st))) /\
    obs (snd (run_loop env reads (buf, st)))
    = obs (process_lines env (map terminated segs) st).
Proof.
  revert buf st; induction reads as [|r reads IH]; intros buf st Hbuf.
  - exists []. simpl. unfold received; simpl. rewrite app_nil_r. auto.
  - destruct (obs_iteration r buf st Hbuf) as (segs1 & H1 & E1 & C1 & V1).
    change (run_loop env (r :: reads) (buf, st))
      with (run_loop env reads (iteration env r (buf, st))).
    destruct (iteration env r (buf, st)) as [buf1 st1].
    cbn [fst snd] in *.
    destruct (IH buf1 st1 C1) as (segs2 & H2 & E2 & C2 & V2).
    exists (segs1 ++ segs2). repeat split.
    + apply Forall_app; auto.
    + unfold received in *. cbn [map concat].
      rewrite map_app, concat_app, <- app_assoc, <- E2.
      rewrite !app_assoc. now rewrite E1.
    + exact C2.
    + rewrite V2, map_app, process_lines_app.
      now apply obs_process_lines.
Qed.

(** After any reads, the observation is that of the body applied, in order,
    to the lines of the bytes received. *)
Lemma obs_run_from_entry (reads : list read_result) :
  obs (snd (run_loop env reads (loop_entry env)))
  = obs (process_lines
           env (map terminated (fst (split_newline (received reads))))
           (snd (loop_entry env))).
Proof.
  destruct (loop_entry_view env) as [Hb _].
  destruct (loop_entry env) as [buf st]. cbn [fst snd] in *. subst buf.
  destruct (obs_run_loop reads [] st (fun x => x))
    as (segs & Hsegs & E & C & V).
  simpl in E. rewrite E, (split_newline_unique _ _ Hsegs C). exact V.
Qed.

End Observation.

(** ** The loop and [wmain], further *)

Section LoopProperties.

Variable env : Win32.

Lemma ignored_reports_app (t1 t2 : list event) :
  ignored_reports (t1 ++ t2) = ignored_reports t1 ++ ignored_reports t2.
Proof. apply flat_map_app. Qed.

Lemma name_writes_app (t1 t2 : list event) :
  name_writes (t1 ++ t2) = name_writes t1 ++ name_writes t2.
Proof. apply flat_map_app. Qed.

Lemma outer_part_app (t1 t2 : list event) :
  outer_part (t1 ++ t2) = outer_part t1 ++ outer_part t2.
Proof. apply filter_app. Qed.

(** What one run of the body adds to the output. *)
Lemma process_line_trace (l : cstring) (st : state) :
  exists added,
    trace (process_line env l st) = trace st ++ added /\
    forallb is_line_event added = true /\
    ignored_reports added
    = match validate l with Rejected t => [t] | _ => [] end /\
    name_writes added = [].
Proof.
  unfold process_line. destruct (validate l) as [|t|t]; simpl.
  - exists []. now rewrite app_nil_r.
  - exists [Print (MsgIgnored t)]. auto.
  - unfold admit_reading. simpl.
    destruct (StdString.eqb t (lastValueWritten st)); simpl.
    + exists []. now rewrite app_nil_r.
    + destruct (negb _); simpl; rewrite <- app_assoc; simpl;
        eexists; (split; [reflexivity|]); auto.
Qed.

Lemma outer_part_line_events (added : list event) :
  forallb is_line_event added = true -> outer_part added = [].
Proof.
  induction added as [|e added IH]; simpl; [reflexivity|].
  intros H. apply andb_prop in H as [-> H]. simpl. now apply IH.
Qed.

Lemma process_lines_trace (ls : list cstring) (st : state) :
  outer_part (trace (process_lines env ls st)) = outer_part (trace st) /\
  ignored_reports (trace (process_lines env ls st))
  = ignored_reports (trace st) ++ rejections ls /\
  name_writes (trace (process_lines env ls st)) = name_writes (trace st).
Proof.
  revert st; induction ls as [|l ls IH]; intros st; simpl.
  - now rewrite app_nil_r.
  - fold (process_lines env ls (process_line env l st)).
    destruct (IH (process_line env l st)) as (-> & -> & ->).
    destruct (process_line_trace l st) as (added & -> & Hl & Hi & Hn).
    rewrite outer_part_app, ignored_reports_app, name_writes_app.
    rewrite (outer_part_line_events _ Hl), Hi, Hn, !app_nil_r.
    now rewrite <- app_assoc.
Qed.

Lemma emit_trace (e : event) (st : state) : trace (emit e st) = trace st ++ [e].
Proof. reflexivity. Qed.

Lemma iteration_outer (r : read_result) (buf : cstring) (st : state) :
  outer_part (trace (snd (iteration env r (buf, st))))
  = outer_part (trace st) ++ outer_events r.
Proof.
  unfold outer_events. destruct r as [err|[|c data]]; simpl.
  - destruct (negb _); simpl; rewrite ?outer_part_app; simpl;
      now rewrite <- ?app_assoc.
  - rewrite !outer_part_app. simpl. now rewrite <- app_assoc.
  - destruct (drain_spec env (buf ++ c :: data) (emit ReadFileCall st))
      as (segs & _ & _ & _ & ->).
    destruct (process_lines_trace (map terminated segs) (emit ReadFileCall st))
      as (-> & _ & _).
    now rewrite emit_trace, outer_part_app.
Qed.

Lemma run_loop_outer (reads : list read_result) (buf : cstring) (st : state) :
  outer_part (trace (snd (run_loop env reads (buf, st))))
  = outer_part (trace st) ++ flat_map outer_events reads.
Proof.
  revert buf st; induction reads as [|r reads IH]; intros buf st.
  - simpl. now rewrite app_nil_r.
  - change (run_loop env (r :: reads) (buf, st))
      with (run_loop env reads (iteration env r (buf, st))).
    pose proof (iteration_outer r buf st) as H.
    destruct (iteration env r (buf, st)) as [buf1 st1]. cbn [snd] in H.
    rewrite IH, H. cbn [flat_map]. now rewrite app_assoc.
Qed.

(** Counting events the body of the line loop never produces. *)
Lemma filter_outer (p : event -> bool) (tr : list event) :
  (forall e, p e = true -> is_line_event e = false) ->
  filter p tr = filter p (outer_part tr).
Proof.
  intros H. unfold outer_part. induction tr as [|e tr IH]; simpl;
    [reflexivity|].
  destruct (p e) eqn:Hp.
  - rewrite (H _ Hp). simpl. now rewrite Hp, IH.
  - destruct (negb (is_line_event e)); simpl; [rewrite Hp|]; exact IH.
Qed.

Lemma filter_outer_events (p : event -> bool) (reads : list read_result) :
  (forall m, p (Print m) = false) -> (forall ms, p (Sleep ms) = false) ->
  length (filter p (flat_map outer_events reads))
  = if p ReadFileCall then length reads else 0.
Proof.
  intros Hp Hs. induction reads as [|r reads IH].
  - simpl. now destruct (p ReadFileCall).
  - cbn [flat_map]. rewrite filter_app, length_app, IH.
    assert (forall tail, filter p tail = [] ->
                         length (filter p (ReadFileCall :: tail))
                         = if p ReadFileCall then 1 else 0) as Hd.
    { intros tail Ht. simpl. rewrite Ht. now destruct (p ReadFileCall). }
    unfold outer_events. rewrite Hd.
    + cbn [length]. destruct (p ReadFileCall); lia.
    + destruct r as [err|[|c data]]; simpl; rewrite ?Hs; try reflexivity.
      destruct (negb _); simpl; now rewrite ?Hp, ?Hs.
Qed.

Lemma loop_entry_trace :
  ignored_reports (trace (snd (loop_entry env))) = [] /\
  name_writes (trace (snd (loop_entry env)))
  = [(widen (str "Temperature"), RegSetValueExW_res env 0)] /\
  read_calls (trace (snd (loop_entry env))) = 0 /\
  handle_closes (trace (snd (loop_entry env))) = 0 /\
  key_closes (trace (snd (loop_entry env))) = 0.
Proof.
  unfold loop_entry; simpl. destruct (negb _); simpl; repeat split.
Qed.

(** X8: the reports of non-numeric lines in the output are, in order, the
    trimmed texts of exactly the lines that are neither blank nor valid:
    one report for each, none for any other line. *)
Theorem ignored_reports_are_the_rejected_lines (reads : list read_result) :
  ignored_reports (trace (snd (run_loop env reads (loop_entry env))))
  = rejections (map terminated (fst (split_newline (received reads)))).
Proof.
  rewrite (obs_run_from_entry env _ (fun st => ignored_reports (trace st))).
  - destruct (process_lines_trace
                (map terminated (fst (split_newline (received reads))))
                (snd (loop_entry env))) as (_ & -> & _).
    destruct loop_entry_trace as (-> & _). reflexivity.
  - intros e st He. rewrite emit_trace, ignored_reports_app.
    destruct e as [[]| | | | |]; simpl in *; try discriminate;
      now rewrite app_nil_r.
  - intros l st st' H.
    destruct (process_line_trace l st) as (a & -> & _ & Ha & _).
    destruct (process_line_trace l st') as (a' & -> & _ & Ha' & _).
    now rewrite !ignored_reports_app, H, Ha, Ha'.
Qed.

Lemma run_loop_outer_entry (reads : list read_result) :
  let final := run_loop env reads (loop_entry env) in
  outer_part (trace (snd final))
  = outer_part (trace (snd (loop_entry env))) ++ flat_map outer_events reads /\
  read_calls (trace (snd final)) = length reads.
Proof.
  cbv zeta.
  pose proof (run_loop_outer reads (fst (loop_entry env)) (snd (loop_entry env)))
    as H.
  rewrite <- surjective_pairing in H. split; [exact H|].
  unfold read_calls.
  rewrite filter_outer by (intros [] He; try discriminate; reflexivity).
  rewrite H, filter_app, length_app.
  rewrite <- filter_outer by (intros [] He; try discriminate; reflexivity).
  destruct loop_entry_trace as (_ & _ & R & _). unfold read_calls in R.
  rewrite R, filter_outer_events by reflexivity. reflexivity.
Qed.

(** X9: in every turn the outer loop calls [ReadFile] once; after a failed
    read it reports the error, unless it is [ERROR_OPERATION_ABORTED], and
    waits 50 ms; after a read of no bytes it waits 10 ms; after a read of
    data it does not wait.  Nothing else is output by the loop besides what
    the line loop outputs, so the number of calls of [ReadFile] is the
    number of turns. *)
Theorem outer_loop_reads_once_and_waits_when_idle (reads : list read_result) :
  let final := run_loop env reads (loop_entry env) in
  outer_part (trace (snd final))
  = outer_part (trace (snd (loop_entry env))) ++ flat_map outer_events reads /\
  read_calls (trace (snd final)) = length reads.
Proof. apply run_loop_outer_entry. Qed.

Lemma count_in_loop (p : event -> bool) (reads : list read_result) :
  (forall e, p e = true -> is_line_event e = false) ->
  (forall m, p (Print m) = false) -> (forall ms, p (Sleep ms) = false) ->
  p ReadFileCall = false ->
  length (filter p (trace (snd (run_loop env reads (loop_entry env)))))
  = length (filter p (trace (snd (loop_entry env)))).
Proof.
  intros Hl Hp Hs Hr.
  pose proof (run_loop_outer reads (fst (loop_entry env)) (snd (loop_entry env)))
    as H.
  rewrite <- surjective_pairing in H.
  rewrite (filter_outer p _ Hl), H, filter_app, length_app.
  rewrite <- (filter_outer p _ Hl), (filter_outer_events p _ Hp Hs), Hr. lia.
Qed.

Lemma run_loop_name_writes (reads : list read_result) :
  name_writes (trace (snd (run_loop env reads (loop_entry env))))
  = [(widen (str "Temperature"), RegSetValueExW_res env 0)].
Proof.
  rewrite (obs_run_from_entry env _ (fun st => name_writes (trace st))).
  - destruct (process_lines_trace
                (map terminated (fst (split_newline (received reads))))
                (snd (loop_entry env))) as (_ & _ & ->).
    now destruct loop_entry_trace as (_ & -> & _).
  - intros e st He. rewrite emit_trace, name_writes_app.
    destruct e as [[]| | | | |]; simpl in *; try discriminate;
      now rewrite app_nil_r.
  - intros l st st' H.
    destruct (process_line_trace l st) as (a & -> & _ & _ & Ha).
    destruct (process_line_trace l st') as (a' & -> & _ & _ & Ha').
    now rewrite !name_writes_app, H, Ha, Ha'.
Qed.

Lemma wmain_started :
  startup_ok env = true ->
  wmain env
  = (0%Z,
     trace (snd (run_loop env (ReadFile_res env) (loop_entry env)))
       ++ [Print MsgShuttingDown; RegCloseKey; CloseHandle;
           Print MsgExitComplete]).
Proof.
  unfold startup_ok, wmain. intros H.
  apply andb_prop in H as [H Hr]. apply andb_prop in H as [H Hs].
  apply andb_prop in H as [Ho Hg]. rewrite Ho, Hg, Hs, Hr. simpl.
  now destruct (run_loop env (ReadFile_res env) (loop_entry env)).
Qed.

Lemma wmain_not_started :
  startup_ok env = false ->
  fst (wmain env) = 1%Z /\
  read_calls (snd (wmain env)) = 0 /\
  registry_writes (snd (wmain env)) = 0 /\
  name_writes (snd (wmain env)) = [] /\
  key_closes (snd (wmain env)) = 0 /\
  handle_closes (snd (wmain env)) = if CreateFileW_ok env then 1 else 0.
Proof.
  unfold startup_ok, wmain.
  destruct (CreateFileW_ok env); simpl; [|intros _; repeat split].
  destruct (GetCommState_ok env); simpl; [|intros _; repeat split].
  destruct (SetCommState_ok env); simpl; [|intros _; repeat split].
  intros ->. simpl. repeat split.
Qed.

(** X10: [wmain] returns 1 exactly when the port cannot be opened, its
    state cannot be read or set, or the registry key cannot be created, and
    then it has neither called [ReadFile] nor written to the registry;
    otherwise it returns 0, having called [ReadFile] once per turn of the
    loop, whether or not the name or any value could be written. *)
Theorem exit_status_tells_whether_startup_succeeded :
  if startup_ok env then
    fst (wmain env) = 0%Z /\
    read_calls (snd (wmain env)) = length (ReadFile_res env)
  else
    fst (wmain env) = 1%Z /\
    read_calls (snd (wmain env)) = 0 /\
    registry_writes (snd (wmain env)) = 0.
Proof.
  destruct (startup_ok env) eqn:Hs.
  - rewrite (wmain_started Hs). cbn [fst snd]. split; [reflexivity|].
    unfold read_calls. rewrite filter_app, length_app. cbn [filter length].
    destruct (run_loop_outer_entry (ReadFile_res env)) as [_ R].
    unfold read_calls in R. rewrite R. lia.
  - destruct (wmain_not_started Hs) as (? & ? & ? & _). auto.
Qed.

(** X11: on every path through [wmain] the handle of the port is closed
    exactly once when it was opened and never otherwise, and the registry
    key is closed exactly once when it was created and never otherwise: the
    loop itself closes nothing. *)
Theorem handles_are_closed_exactly_once :
  handle_closes (snd (wmain env)) = (if CreateFileW_ok env then 1 else 0) /\
  key_closes (snd (wmain env)) = (if startup_ok env then 1 else 0).
Proof.
  destruct (startup_ok env) eqn:Hs.
  - rewrite (wmain_started Hs). cbn [snd].
    unfold handle_closes, key_closes.
    rewrite !filter_app, !length_app. cbn [filter length].
    rewrite !count_in_loop
      by (try reflexivity; intros []; try discriminate; reflexivity).
    destruct loop_entry_trace as (_ & _ & _ & Hh & Hk).
    unfold handle_closes, key_closes in Hh, Hk. rewrite Hh, Hk.
    unfold startup_ok in Hs. destruct (CreateFileW_ok env); [auto|].
    discriminate Hs.
  - destruct (wmain_not_started Hs) as (_ & _ & _ & _ & Hk & Hh). auto.
Qed.

(** X12: when startup succeeds the name "Temperature" is written exactly
    once, by the first call of [RegSetValueExW], whatever that call and the
    reads return; when startup fails it is not written at all. *)
Theorem name_is_written_exactly_once :
  name_writes (snd (wmain env))
  = if startup_ok env
    then [(widen (str "Temperature"), RegSetValueExW_res env 0)]
    else [].
Proof.
  destruct (startup_ok env) eqn:Hs.
  - rewrite (wmain_started Hs). cbn [snd].
    rewrite name_writes_app, run_loop_name_writes. reflexivity.
  - now destruct (wmain_not_started Hs) as (_ & _ & _ & -> & _).
Qed.








End LoopProperties.

(** ** The validator and the gate, further *)

Section ReadingProperties.

Import CType StdString Strtod Literal.

Ltac by_cases_on_char c :=
  destruct c as [[|] [|] [|] [|] [|] [|] [|] [|]]; vm_compute.

Lemma literal_char_facts (c : ascii) :
  literal_char c = true ->
  (code c <? 128) = true /\ negb (isspace c) = true.
Proof. by_cases_on_char c; intros; split; congruence. Qed.

Lemma literal_char_of_class (c : ascii) :
  isdigit c || isxdigit c || isnchar c || Ascii.eqb c "."%char
  || isalpha (tolower c) = true ->
  literal_char c = true.
Proof. by_cases_on_char c; intros; congruence. Qed.

Lemma forallb_weaken (p q : ascii -> bool) (s : cstring) :
  (forall c, p c = true -> q c = true) ->
  forallb p s = true -> forallb q s = true.
Proof.
  intros H. induction s as [|c s IH]; simpl; [reflexivity|].
  intros Hs. apply andb_prop in Hs as [Hc Hs].
  now rewrite (H _ Hc), IH.
Qed.

Lemma sign_text_chars (sg : cstring) :
  sign_text sg -> forallb literal_char sg = true.
Proof. now intros []. Qed.

Lemma digits_text_literal (isd : ascii -> bool) (txt ip fp : cstring) :
  (forall c, isd c = true -> literal_char c = true) ->
  digits_text isd txt ip fp -> forallb literal_char txt = true.
Proof.
  intros Hd Ht. apply digits_text_chars in Ht.
  revert Ht. apply forallb_weaken. intros c Hc.
  apply orb_prop in Hc as [Hc|Hc]; [now apply Hd|].
  apply Ascii.eqb_eq in Hc. now subst c.
Qed.

Lemma exponent_text_literal (marker : ascii) (ex : cstring) (e : Z) :
  isalpha marker = true ->
  exponent_text marker ex e -> forallb literal_char ex = true.
Proof.
  intros Hm [|c sg ds Hc Hsg _ Hds]; [reflexivity|]. simpl.
  rewrite forallb_app, (sign_text_chars _ Hsg).
  rewrite (forallb_weaken isdigit literal_char ds); [|intros d Hd|exact Hds].
  - rewrite literal_char_of_class; [reflexivity|].
    rewrite Hc, Hm. now rewrite !orb_true_r.
  - apply literal_char_of_class. now rewrite Hd.
Qed.

Lemma word_literal (w word : cstring) :
  map tolower w = word -> forallb isalpha word = true ->
  forallb literal_char w = true.
Proof.
  intros <-. induction w as [|c w IH]; simpl; [reflexivity|].
  intros H. apply andb_prop in H as [Hc Hw].
  rewrite literal_char_of_class by (rewrite Hc; now rewrite !orb_true_r).
  now apply IH.
Qed.

(** A floating literal is made of digits, letters, signs, the radix
    character, parentheses and underscores. *)
Lemma float_literal_chars (t : cstring) (v : number) :
  float_literal t v -> forallb literal_char t = true.
Proof.
  assert (forall c, isdigit c = true -> literal_char c = true) as Hdig
      by (intros c H; apply literal_char_of_class; now rewrite H).
  assert (forall c, isxdigit c = true -> literal_char c = true) as Hxdig
      by (intros c H; apply literal_char_of_class; rewrite H;
          now rewrite !orb_true_r).
  intros (sg & u & -> & Hsg & Hu).
  rewrite forallb_app, (sign_text_chars _ Hsg). simpl.
  destruct Hu as [m ip fp ex e Hm Hex | x m ip fp ex e Hx Hm Hex
                  | w Hw | w Hw | w cs Hw Hcs].
  - rewrite forallb_app, (digits_text_literal _ _ _ _ Hdig Hm).
    now rewrite (exponent_text_literal "e"%char ex e).
  - simpl. rewrite forallb_app, (digits_text_literal _ _ _ _ Hxdig Hm).
    rewrite (exponent_text_literal "p"%char ex e) by (auto; reflexivity).
    rewrite literal_char_of_class; [reflexivity|].
    rewrite Hx. apply orb_true_r.
  - destruct Hw as [Hw|Hw]; now apply (word_literal _ _ Hw).
  - now apply (word_literal _ _ Hw).
  - rewrite forallb_app, (word_literal _ _ Hw) by reflexivity. simpl.
    rewrite forallb_app. simpl. rewrite andb_true_r.
    revert Hcs. apply forallb_weaken. intros c Hc.
    apply literal_char_of_class. rewrite Hc. now rewrite !orb_true_r.
Qed.

Lemma reading_is_literal (line t : cstring) :
  validate line = Reading t ->
  exists v, float_literal t v /\ erange v = false.
Proof.
  intros H. apply validate_reading in H as (-> & _ & Hs).
  now apply stod_whole in Hs; [|apply trim_ascii_stops].
Qed.

Lemma reading_chars (line t : cstring) :
  validate line = Reading t ->
  forallb literal_char t = true /\ is_ascii7 t = true /\ no_space t = true.
Proof.
  intros H. apply reading_is_literal in H as (v & Hv & _).
  pose proof (float_literal_chars _ _ Hv) as Hc.
  split; [exact Hc|]. split; revert Hc; apply forallb_weaken;
    intros c Hc; now apply literal_char_facts in Hc.
Qed.

(** X13: the text of a Reading holds only digits, letters, signs, the
    radix character, parentheses and underscores: every byte of it is a
    7-bit character, and none is white space or a control character (so a
    line such as "5 6" is never a Reading). *)
Theorem reading_text_has_only_literal_characters (line t : cstring) :
  validate line = Reading t ->
  forallb literal_char t = true /\ is_ascii7 t = true /\ no_space t = true.
Proof. apply reading_chars. Qed.

Lemma reading_text_has_only_literal_characters_witness :
  forallb literal_char (str "-3.14") = true /\
  is_ascii7 (str "-3.14") = true /\ no_space (str "-3.14") = true.
Proof.
  apply (reading_text_has_only_literal_characters
           (str " -3.14" ++ [CR; LF]) (str "-3.14")).
  vm_compute. reflexivity.
Defined.

End ReadingProperties.

Section GateProperties.

Import CType StdString Strtod Literal.

Variable env : Win32.

Lemma process_line_last (l : cstring) (st : state) :
  lastValueWritten (process_line env l st)
  = match validate l with
    | Reading t => t
    | _ => lastValueWritten st
    end.
Proof.
  pose proof (process_line_view env l st) as V. unfold view in V.
  destruct (validate l) as [| |t]; try (now injection V as -> _ _ _).
  destruct (cstring_eqb_spec t (lastValueWritten st)) as [E|_];
    injection V as -> _ _ _; auto.
Qed.

Lemma last_cons_default (A : Type) (l : list A) (x d : A) :
  last (x :: l) d = last l x.
Proof.
  revert x d; induction l as [|y l IH]; intros x d; [reflexivity|].
  change (last (x :: y :: l) d) with (last (y :: l) d).
  now rewrite (IH y d), (IH y x).
Qed.

Lemma process_lines_last (ls : list cstring) (st : state) :
  lastValueWritten (process_lines env ls st)
  = last (readings ls) (lastValueWritten st).
Proof.
  revert st; induction ls as [|l ls IH]; intros st; [reflexivity|].
  change (process_lines env (l :: ls) st)
    with (process_lines env ls (process_line env l st)).
  rewrite IH, process_line_last. unfold readings. cbn [flat_map].
  destruct (validate l) as [| |t]; cbn [app]; try reflexivity.
  symmetry. apply last_cons_default.
Qed.

(** X14: after any reads, [lastValueWritten] is the text of the most recent
    Reading, and is empty when there has been none: blank and rejected lines
    do not touch it, and neither does the result of a write. *)
Theorem last_value_is_the_latest_reading (reads : list read_result) :
  lastValueWritten (snd (run_loop env reads (loop_entry env)))
  = last (readings (map terminated (fst (split_newline (received reads)))))
         [].
Proof.
  rewrite (obs_run_from_entry env _ lastValueWritten).
  - rewrite process_lines_last.
    now destruct (loop_entry_state env) as (-> & _).
  - reflexivity.
  - intros l st st' H. now rewrite !process_line_last, H.
Qed.

Lemma write_attempts_data (n : nat) (ts : list cstring) :
  map fst (write_attempts env n ts) = map (utf8_to_wstring env) ts.
Proof.
  revert n; induction ts as [|t ts IH]; intros n; simpl;
    [reflexivity | now rewrite IH].
Qed.

Lemma changes_in (last_ t : cstring) (ts : list cstring) :
  In t (changes last_ ts) -> In t ts.
Proof.
  revert last_; induction ts as [|x ts IH]; intros last_; simpl; [tauto|].
  destruct (StdString.eqb x last_); simpl.
  - intros H. right. exact (IH _ H).
  - intros [H|H]; [now left | right; exact (IH _ H)].
Qed.

Lemma readings_in (t : cstring) (ls : list cstring) :
  In t (readings ls) -> exists l, validate l = Reading t.
Proof.
  unfold readings. intros H. apply in_flat_map in H as (l & _ & H).
  destruct (validate l) as [| |t'] eqn:Hv; simpl in H; try tauto.
  destruct H as [<- | []]. now exists l.
Qed.


Lemma adjacent_distinct_tail (A : Type) (x : A) (l : list A) :
  adjacent_distinct (x :: l) -> adjacent_distinct l.
Proof. destruct l as [|y l]; simpl; tauto. Qed.



(** The data of the writes of the value, when 7-bit text is converted
    byte by byte. *)
Lemma value_data (reads : list read_result) :
  decodes_ascii env ->
  map fst (value_writes (trace (snd (run_loop env reads (loop_entry env)))))
  = map widen
        (changes [] (readings (map terminated
                                   (fst (split_newline (received reads)))))).
Proof.
  intros Hd. destruct (run_from_entry env reads) as (_ & _ & Hw).
  cbv zeta in Hw. rewrite Hw, write_attempts_data.
  apply map_ext_in. intros t Ht.
  apply changes_in, readings_in in Ht as (l & Hl).
  apply utf8_to_wstring_ascii; [exact Hd|].
  now apply reading_chars in Hl.
Qed.

(** X15: provided the system converts 7-bit text byte by byte, what is
    written to the registry value is always the text of a Reading itself,
    character for character (the trimmed text the sensor sent, never a
    reformatted number): the data written are the readings that differ from
    their predecessor, widened. *)
Theorem registry_receives_the_reading_text_verbatim
        (reads : list read_result) :
  decodes_ascii env ->
  map fst (value_writes (trace (snd (run_loop env reads (loop_entry env)))))
  = map widen
        (changes [] (readings (map terminated
                                   (fst (split_newline (received reads)))))).
Proof. apply value_data. Qed.


End GateProperties.

Lemma registry_receives_the_reading_text_verbatim_witness :
  map fst (value_writes
             (trace (snd (run_loop quiet_env
                            [ReadOk (str " 21.50 " ++ [CR; LF] ++ str "21.5")]
                            (loop_entry quiet_env)))))
  = [widen (str "21.50")].
Proof.
  apply (registry_receives_the_reading_text_verbatim
           quiet_env [ReadOk (str " 21.50 " ++ [CR; LF] ++ str "21.5")]).
  intros s _ _. reflexivity.
Defined.


(** ** Which texts are Readings *)

Section AcceptedTexts.

Import CType StdString Strtod Literal.

Ltac by_cases_on_char c :=
  destruct c as [[|] [|] [|] [|] [|] [|] [|] [|]]; vm_compute.

Lemma no_space_rev (s : cstring) : no_space (rev s) = no_space s.
Proof.
  unfold no_space. induction s as [|c s IH]; simpl; [reflexivity|].
  rewrite forallb_app, IH. simpl. rewrite andb_true_r. apply andb_comm.
Qed.

Lemma no_space_stops (s : cstring) : no_space s = true -> stops isspace s.
Proof.
  destruct s as [|c s]; simpl; [auto|]. intros H.
  apply andb_prop in H as [H _]. now destruct (isspace c).
Qed.

Lemma no_space_trim (t : cstring) :
  no_space t = true -> trim_ascii t = t.
Proof.
  intros H. rewrite trim_ascii_strip.
  apply strip_fixed; apply no_space_stops; [|rewrite no_space_rev]; exact H.
Qed.

(** A literal whose magnitude is in range is a Reading, alone on its line. *)
Lemma literal_reading (t : cstring) (v : number) :
  float_literal t v -> erange v = false ->
  validate t = Reading t /\ validate (t ++ [LF]) = Reading t.
Proof.
  intros Hv He.
  assert (no_space t = true) as Hn.
  { pose proof (float_literal_chars _ _ Hv) as Hc. revert Hc.
    apply forallb_weaken. intros c Hc. now apply literal_char_facts in Hc. }
  pose proof (no_space_trim _ Hn) as Et.
  assert (stod t = inr (length t)) as Hs.
  { apply stod_whole; [now apply no_space_stops|]. now exists v. }
  pose proof (float_literal_nonempty _ _ Hv) as Hne.
  split; apply validate_reading; repeat split; auto;
    rewrite ?trim_ascii_terminated by reflexivity; now rewrite Et.
Qed.

Lemma digit_value_range (c : ascii) :
  isdigit c = true ->
  ((0 <=? digit_value c) && (digit_value c <=? 9))%Z = true.
Proof. by_cases_on_char c; intros; congruence. Qed.

Lemma digits_value_from (ds : cstring) (acc : Z) (k : nat) :
  all isdigit ds ->
  (0 <= acc < 10 ^ Z.of_nat k)%Z ->
  (0 <= fold_left (fun a c => a * 10 + digit_value c) ds acc
   < 10 ^ Z.of_nat (k + length ds))%Z.
Proof.
  unfold all. revert acc k; induction ds as [|c ds IH]; intros acc k Hd Ha.
  - simpl. now rewrite Nat.add_0_r.
  - simpl in Hd. apply andb_prop in Hd as [Hc Hd].
    apply digit_value_range in Hc. apply andb_prop in Hc as [H0 H9].
    apply Z.leb_le in H0, H9.
    cbn [fold_left length]. rewrite Nat.add_succ_r, <- Nat.add_succ_l.
    apply IH; [exact Hd|].
    rewrite Nat2Z.inj_succ, Z.pow_succ_r by lia. lia.
Qed.

(** A number of [n] decimal digits is below [10^n]. *)
Lemma digits_value_bound (ds : cstring) :
  all isdigit ds ->
  (0 <= digits_value 10 ds < 10 ^ Z.of_nat (length ds))%Z.
Proof.
  intros H. apply (digits_value_from ds 0 0 H). simpl. lia.
Qed.

Lemma bounds_of_double :
  (10 ^ 308 < overflow_bound)%Z /\ (10 ^ 323 < 2 ^ 1075)%Z.
Proof. split; vm_compute; reflexivity. Qed.

(** A number below [10^(i+f)] scaled by [10^-f] is in the range of [double]
    when [i <= 308] and [f <= 323]. *)
Lemma plain_in_range (m : Z) (i f : nat) :
  (0 <= m < 10 ^ Z.of_nat (i + f))%Z -> i <= 308 -> f <= 323 ->
  erange (Finite 10 m (0 - Z.of_nat f)) = false.
Proof.
  intros Hm Hi Hf. destruct bounds_of_double as [Ho Hu].
  assert (10 ^ Z.of_nat i <= 10 ^ 308)%Z as Pi
      by (apply Z.pow_le_mono_r; lia).
  assert (10 ^ Z.of_nat f <= 10 ^ 323)%Z as Pf
      by (apply Z.pow_le_mono_r; lia).
  assert (0 < 10 ^ Z.of_nat f)%Z as Pf0 by (apply Z.pow_pos_nonneg; lia).
  assert (0 < 10 ^ Z.of_nat i)%Z as Pi0 by (apply Z.pow_pos_nonneg; lia).
  rewrite Nat2Z.inj_add, Z.pow_add_r in Hm by lia.
  unfold erange, overflows, underflows.
  set (F := Z.of_nat f) in *. set (e := (0 - F)%Z).
  assert (- e = F)%Z as Ee by (unfold e; lia). rewrite Ee.
  set (X := (10 ^ F)%Z) in *. set (Y := (10 ^ Z.of_nat i)%Z) in *.
  generalize dependent overflow_bound. intros B Ho.
  set (P := (2 ^ 1075)%Z) in *. set (T := (10 ^ 323)%Z) in *.
  set (E := (10 ^ 308)%Z) in *.
  apply orb_false_intro.
  - destruct (Z.leb_spec 0 e) as [He|He]; apply Z.leb_gt.
    + assert (F = 0)%Z as F0 by (unfold e in He; lia).
      assert (e = 0)%Z as -> by lia.
      unfold X in *. rewrite F0 in *. change (10 ^ 0)%Z with 1%Z in *. lia.
    + nia.
  - destruct (Z.ltb_spec 0 m) as [Hpos|Hz]; [|reflexivity].
    destruct (Z.ltb_spec e 0) as [He|He]; [|reflexivity].
    simpl. apply Z.leb_gt. nia.
Qed.

(** X17: an ordinary decimal number is always a Reading, with its text
    kept as it is (leading and trailing zeros included): an optional sign,
    at most 308 digits, and optionally a point followed by at most 307
    digits, with at least one digit in all.  (Such a number is zero or lies
    between the smallest normal and the largest [double], so its conversion
    neither overflows nor underflows.) *)
Theorem plain_decimal_number_is_a_reading (sg ip fp : cstring) :
  sign_text sg -> all isdigit ip -> all isdigit fp -> ip ++ fp <> [] ->
  length ip <= 308 -> length fp <= 307 ->
  validate (sg ++ ip ++ "."%char :: fp ++ [LF])
  = Reading (sg ++ ip ++ "."%char :: fp) /\
  (ip <> [] -> validate (sg ++ ip ++ [LF]) = Reading (sg ++ ip)).
Proof.
  intros Hsg Hip Hfp Hne Li Lf. split.
  - assert (float_literal
              (sg ++ ip ++ "."%char :: fp)
              (Finite 10 (digits_value 10 (ip ++ fp))
                      (0 - Z.of_nat (length fp)))) as Hv.
    { exists sg, (ip ++ "."%char :: fp). repeat split; [exact Hsg|].
      rewrite <- (app_nil_r (ip ++ "."%char :: fp)).
      apply literal_decimal; [now constructor | constructor]. }
    apply (literal_reading _ _) in Hv as [_ H].
    + rewrite <- H. f_equal. rewrite <- !app_assoc. reflexivity.
    + apply (plain_in_range _ (length ip)); [|exact Li|lia].
      rewrite <- length_app. apply digits_value_bound.
      unfold all in *. now rewrite forallb_app, Hip, Hfp.
  - intros Hi.
    assert (float_literal
              (sg ++ ip)
              (Finite 10 (digits_value 10 (ip ++ []))
                      (0 - Z.of_nat (length (@nil ascii))))) as Hv.
    { exists sg, ip. repeat split; [exact Hsg|].
      rewrite <- (app_nil_r ip) at 1.
      apply literal_decimal; [now constructor | constructor]. }
    apply (literal_reading _ _) in Hv as [_ H].
    + rewrite <- H. now rewrite <- app_assoc.
    + apply (plain_in_range _ (length ip)); [|exact Li|simpl; lia].
      rewrite app_nil_r, Nat.add_0_r. now apply digits_value_bound.
Qed.

Lemma plain_decimal_number_is_a_reading_witness :
  validate (str "-003.140" ++ [LF]) = Reading (str "-003.140") /\
  validate (str "-003" ++ [LF]) = Reading (str "-003").
Proof.
  destruct (plain_decimal_number_is_a_reading
              ["-"%char] (str "003") (str "140")) as [H1 H2].
  - constructor.
  - reflexivity.
  - reflexivity.
  - discriminate.
  - simpl. lia.
  - simpl. lia.
  - split; [exact H1 | apply H2; discriminate].
Defined.

Lemma float_literal_unsigned (u : cstring) (v : number) :
  float_literal u v -> unsigned_head u -> unsigned_literal u v.
Proof.
  intros (sg & u' & -> & Hsg & Hu) Hh.
  destruct Hsg; simpl in Hh; [exact Hu| |]; destruct Hh as [? ?]; congruence.
Qed.

Lemma float_literal_signed (c : ascii) (u : cstring) (v : number) :
  c = "+"%char \/ c = "-"%char ->
  float_literal (c :: u) v <-> unsigned_literal u v.
Proof.
  intros Hc. split.
  - intros (sg & u' & E & Hsg & Hu).
    destruct Hsg; simpl in E.
    + subst u'. destruct (unsigned_literal_head _ _ Hu)
        as (c' & r & [= <- _] & _ & Hp & Hm).
      destruct Hc; contradiction.
    + now injection E as _ <-.
    + now injection E as _ <-.
  - intros Hu. destruct Hc as [-> | ->].
    + exists ["+"%char], u. repeat split; [constructor | exact Hu].
    + exists ["-"%char], u. repeat split; [constructor | exact Hu].
Qed.

Lemma signed_reading (c : ascii) (u : cstring) :
  c = "+"%char \/ c = "-"%char -> unsigned_head u ->
  validate u = Reading u <-> validate (c :: u) = Reading (c :: u).
Proof.
  intros Hc Hh. split; intros H.
  - apply reading_is_literal in H as (v & Hv & He).
    apply float_literal_unsigned in Hv; [|exact Hh].
    apply (float_literal_signed c u v Hc) in Hv.
    now apply (literal_reading _ _ Hv).
  - apply reading_is_literal in H as (v & Hv & He).
    apply (float_literal_signed c u v Hc) in Hv.
    assert (float_literal u v) as Hu
        by (exists [], u; repeat split; [constructor | exact Hv]).
    now apply (literal_reading _ _ Hu).
Qed.

(** X18: a sign does not decide validity: a text that carries no sign is
    the text of a Reading exactly when it is one with "-" in front, and
    exactly when it is one with "+" in front (the sign is kept in the
    text). *)
Theorem sign_does_not_decide_validity (u : cstring) :
  unsigned_head u ->
  (validate u = Reading u <->
   validate ("-"%char :: u) = Reading ("-"%char :: u)) /\
  (validate u = Reading u <->
   validate ("+"%char :: u) = Reading ("+"%char :: u)).
Proof.
  intros Hh. split; apply signed_reading; auto.
Qed.

Lemma sign_does_not_decide_validity_witness :
  validate (str "-21.5") = Reading (str "-21.5") /\
  validate (str "+21.5") = Reading (str "+21.5").
Proof.
  destruct (sign_does_not_decide_validity (str "21.5")) as [Hm Hp].
  - simpl. split; discriminate.
  - split; [apply Hm | apply Hp]; vm_compute; reflexivity.
Defined.

End AcceptedTexts.

(** ** [ConsoleHandler] *)

Section Shutdown.

Lemma ConsoleHandler_cases (code : Z) (g : bool) :
  (code = CTRL_C_EVENT \/ code = CTRL_CLOSE_EVENT \/
   code = CTRL_LOGOFF_EVENT \/ code = CTRL_SHUTDOWN_EVENT) /\
  ConsoleHandler code g = (true, false)
  \/
  (code <> CTRL_C_EVENT /\ code <> CTRL_CLOSE_EVENT /\
   code <> CTRL_LOGOFF_EVENT /\ code <> CTRL_SHUTDOWN_EVENT) /\
  ConsoleHandler code g = (false, g).
Proof.
  unfold ConsoleHandler.
  destruct (Z.eqb_spec code CTRL_C_EVENT); [left; auto|].
  destruct (Z.eqb_spec code CTRL_CLOSE_EVENT); [left; auto|].
  destruct (Z.eqb_spec code CTRL_LOGOFF_EVENT); [left; auto|].
  destruct (Z.eqb_spec code CTRL_SHUTDOWN_EVENT); [left; auto|].
  right. auto.
Qed.

(** X19: the handler takes charge of Ctrl-C, close, logoff and shutdown,
    and of nothing else (not of Ctrl-Break); it only ever clears
    [g_running]: after any sequence of control events the flag is set
    exactly when it was set before and none of the four occurred, so once
    cleared it stays cleared. *)
Theorem console_handler_only_clears_the_flag (codes : list Z) (g : bool) :
  (forall code,
      fst (ConsoleHandler code g) = true <->
      code = CTRL_C_EVENT \/ code = CTRL_CLOSE_EVENT \/
      code = CTRL_LOGOFF_EVENT \/ code = CTRL_SHUTDOWN_EVENT) /\
  fst (ConsoleHandler CTRL_BREAK_EVENT g) = false /\
  after_controls codes g
  = g && forallb (fun code => negb (fst (ConsoleHandler code true))) codes /\
  after_controls codes false = false.
Proof.
  assert (forall g',
             after_controls codes g'
             = g' && forallb (fun code => negb (fst (ConsoleHandler code true)))
                             codes) as H.
  { assert (forall c g0, snd (ConsoleHandler c g0)
                         = g0 && negb (fst (ConsoleHandler c true))) as Step.
    { intros c g0. unfold ConsoleHandler.
      destruct (_ || _); simpl; now destruct g0. }
    unfold after_controls. induction codes as [|c cs IH]; intros g'; simpl.
    - now rewrite andb_true_r.
    - now rewrite IH, Step, andb_assoc. }
  split; [|split; [reflexivity | split; [apply H | now rewrite H]]].
  intros code.
  destruct (ConsoleHandler_cases code g) as [[Hc ->]|[Hc ->]]; simpl;
    [tauto|]. split; [discriminate | tauto].
Qed.

End Shutdown.
